(** * FavouriteAnything: a shallow embedding of the plugin's three variants

    The repository holds three near-duplicate implementations of the same
    plugin:
    - [src/src/index.ts] (module [Index] below): the extractor returns the
      list of every media item, the action-sheet hook looks for a list in the
      return value itself, in [items] or in [actions];
    - the second document of [src/unnamed/part_000] (module [Metro], after
      its [@vendetta/metro] import): the extractor returns the first media
      item or [null], the hook looks in the return value itself, in
      [props.options] or in the [props.options] of a child;
    - the first document of [src/unnamed/part_000] (module [Overlay]): the
      render-overlay variant, of which the life cycle is modelled.

    JavaScript values are modelled with an explicit heap: arrays and objects
    are heap cells reached through references, so that aliasing and in-place
    mutation ([Array.prototype.push]) are visible. *)

From Stdlib Require Import ZArith Ascii String.
From stdpp Require Import gmap strings list fin_maps.

Open Scope string_scope.
Open Scope list_scope.

(** ** JavaScript values, heap and exceptions *)

Module JS.

Definition loc := nat.

Inductive value :=
  | VUndefined
  | VNull
  | VBool (b : bool)
  | VNum (n : Z)
  | VStr (s : string)
  | VRef (l : loc).

(** Heap cells: arrays, plain objects (property maps) and function objects
    (closures), the latter carrying a payload of type [F] that each variant
    instantiates with the closures it builds. *)
Inductive obj (F : Type) :=
  | OArr (elems : list value)
  | ORec (fields : gmap string value)
  | OFun (f : F).
Arguments OArr {F} elems.
Arguments ORec {F} fields.
Arguments OFun {F} f.

Inductive exn := TypeError | HostError.

Inductive res (A : Type) :=
  | Ok (a : A)
  | Throw (e : exn).
Arguments Ok {A} a.
Arguments Throw {A} e.

Definition bind {A B} (m : res A) (k : A -> res B) : res B :=
  match m with
  | Ok a => k a
  | Throw e => Throw e
  end.

Definition is_ok {A} (m : res A) : bool :=
  match m with Ok _ => true | Throw _ => false end.

(** [ToBoolean]: undefined, null, false, 0 and the empty string are falsy. *)
Definition truthy (v : value) : bool :=
  match v with
  | VUndefined | VNull => false
  | VBool b => b
  | VNum n => negb (n =? 0)%Z
  | VStr s => negb (String.eqb s "")
  | VRef _ => true
  end.

Definition nullish (v : value) : bool :=
  match v with
  | VUndefined | VNull => true
  | _ => false
  end.

(** [a || b] on values. *)
Definition js_or (a b : value) : value := if truthy a then a else b.

(** [a || b]: [b] is only evaluated (and can only throw) when [a] is falsy. *)
Definition or_else (a b : res value) : res value :=
  bind a (fun x => if truthy x then Ok x else b).

(** [v === "s"] for a string literal. *)
Definition is_str (v : value) (s : string) : bool :=
  match v with VStr t => String.eqb t s | _ => false end.

Section Heap.
Context {F : Type}.
Implicit Types (h : gmap loc (obj F)) (v : value) (k : string).

(** The value of the property [k] of [v], when [v] is neither undefined
    nor null: undefined on primitives, on arrays (for the named properties
    used here) and on absent keys. *)
Definition prop h v k : value :=
  match v with
  | VRef l =>
      match h !! l with
      | Some (ORec m) => default VUndefined (m !! k)
      | _ => VUndefined
      end
  | _ => VUndefined
  end.

(** [v.k]: a [TypeError] on undefined and null. *)
Definition get h v k : res value :=
  if nullish v then Throw TypeError else Ok (prop h v k).

(** [v?.k] *)
Definition get_opt h v k : res value :=
  match v with
  | VUndefined | VNull => Ok VUndefined
  | _ => get h v k
  end.

(** [Array.isArray(v)], giving the elements. *)
Definition as_array h v : option (list value) :=
  match v with
  | VRef l => match h !! l with Some (OArr xs) => Some xs | _ => None end
  | _ => None
  end.

(** The location of [v] when [Array.isArray(v)]. *)
Definition array_loc h v : option loc :=
  match v with
  | VRef l => match h !! l with Some (OArr _) => Some l | _ => None end
  | _ => None
  end.

(** [arr.push(x)] on the array cell at [l]. *)
Definition push h (l : loc) (x : value) : gmap loc (obj F) :=
  match h !! l with
  | Some (OArr xs) => <[l := OArr (xs ++ [x])]> h
  | _ => h
  end.

(** Allocation of a new cell at an unused location. *)
Definition alloc h (o : obj F) : loc * gmap loc (obj F) :=
  let l := fresh (dom h) in (l, <[l := o]> h).
(** [item.onPress], when it is a function: the closure run by a press on
    the action item. *)
Definition onPressOf h (item : value) : option F :=
  match prop h item "onPress" with
  | VRef lf => match h !! lf with Some (OFun f) => Some f | _ => None end
  | _ => None
  end.

(** From [h] to [h'], [x] was appended to the array at [l] and nothing else
    happened to the cells of [h]: the elements of that array are kept, in
    their order, before [x]. *)
Definition appended h h' (l : loc) (x : value) : Prop :=
  (exists xs, h !! l = Some (OArr xs) /\ h' !! l = Some (OArr (xs ++ [x])))
  /\ forall l' o, l' <> l -> h !! l' = Some o -> h' !! l' = Some o.

(** From [h] to [h'], no cell of [h] changed. *)
Definition untouched h h' : Prop :=
  forall l o, h !! l = Some o -> h' !! l = Some o.

(** [x] is an object allocated after [h]. *)
Definition new_in h (x : value) : Prop :=
  exists l, x = VRef l /\ h !! l = None.

(** [fav] is a favourite item built after [h]: a new object of [h'] with
    the favourite label, a press on which runs the closure [c]. *)
Definition favourite_item h h' (fav : value) (c : F) : Prop :=
  new_in h fav
  /\ onPressOf h' fav = Some c
  /\ prop h' fav "label" = VStr "⭐ Favourite".
End Heap.

Arguments get : simpl never.
Arguments or_else : simpl never.

(** *** Strings *)

(** [String.prototype.toLowerCase], on the ASCII letters (every character of
    the prefixes tested below is ASCII). *)
Definition lower_ascii (c : ascii) : ascii :=
  let n := nat_of_ascii c in
  if (65 <=? n)%nat && (n <=? 90)%nat then ascii_of_nat (n + 32) else c.

Fixpoint toLowerCase (s : string) : string :=
  match s with
  | EmptyString => EmptyString
  | String c s' => String (lower_ascii c) (toLowerCase s')
  end.

(** [s.startsWith(p)] *)
Definition startsWith (s p : string) : bool := String.prefix p s.

(** [s.split(";")[0]]: the part before the first semicolon. *)
Fixpoint before_semicolon (s : string) : string :=
  match s with
  | EmptyString => EmptyString
  | String c s' =>
      if Ascii.eqb c ";"%char then EmptyString
      else String c (before_semicolon s')
  end.

(** Calling a string method on a value that is not a string throws. *)
Definition as_string (v : value) : res string :=
  match v with
  | VStr s => Ok s
  | _ => Throw TypeError
  end.

(** A [for (const x of xs)] loop whose body may [return] a result. *)
Fixpoint first_some {A B} (f : A -> res (option B)) (xs : list A)
  : res (option B) :=
  match xs with
  | [] => Ok None
  | x :: xs' =>
      bind (f x) (fun r =>
        match r with
        | Some b => Ok (Some b)
        | None => first_some f xs'
        end)
  end.

(** A [for (const x of xs)] loop whose body pushes onto a result list. *)
Fixpoint collect {A B} (f : A -> res (list B)) (xs : list A)
  : res (list B) :=
  match xs with
  | [] => Ok []
  | x :: xs' =>
      bind (f x) (fun ys => bind (collect f xs') (fun zs => Ok (ys ++ zs)))
  end.

End JS.

Import JS.

Notation "'let*' x ':=' m 'in' k" := (bind m (fun x => k))
  (at level 10, x name, m at level 100, k at level 200, only parsing).

(** ** Host calls: a state and exception monad

    Calls into the host (favourites API, toasts, share sheet, patcher) are
    recorded in a state [S] and may throw; [try_catch] is the [try]/[catch]
    statement. *)

Module Host.

Definition M (S A : Type) := S -> res A * S.

Definition ret {S A} (a : A) : M S A := fun s => (Ok a, s).

Definition throw {S A} (e : exn) : M S A := fun s => (Throw e, s).

Definition mbind {S A B} (m : M S A) (k : A -> M S B) : M S B :=
  fun s =>
    match m s with
    | (Ok a, s') => k a s'
    | (Throw e, s') => (Throw e, s')
    end.

Definition try_catch {S A} (m : M S A) (handler : exn -> M S A) : M S A :=
  fun s =>
    match m s with
    | (Ok a, s') => (Ok a, s')
    | (Throw e, s') => handler e s'
    end.

(** What a call into the host does, as seen by the caller. *)
Inductive outcome := Returns | Throws.

(** What a module lookup ([findByProps]) does: a module, a falsy value, or
    an exception. *)
Inductive lookup (A : Type) :=
  | Found (a : A)
  | Missing
  | LookupThrows.
Arguments Found {A} a.
Arguments Missing {A}.
Arguments LookupThrows {A}.

(** The calls observed by the host and the user. An object literal passed
    to the host is the list of its properties. *)
Inductive event :=
  | AddToFavorites (arg : list (string * value))
  | Toast (msg : string)
  | ShareOpen (message : value)
  | Log (msg : string).

Definition emit (e : event) : M (list event) unit :=
  fun tr => (Ok tt, tr ++ [e]).

(** A call into the host: it is observed, then returns or throws. *)
Definition host_call (e : event) (o : outcome) : M (list event) unit :=
  fun tr => (match o with Returns => Ok tt | Throws => Throw HostError end,
             tr ++ [e]).


(** A module exposing [addToFavorites]: [None] when the property is not a
    function. *)
Record favModule := { addToFavorites : option outcome }.

(** *** The patcher and the plugin's clean-up list *)

(** Modelled from the spec: the host runtime's patcher is not part of the
    repository. An installation ("run this callback after this function")
    yields one unpatch handle; a handle is "a no-argument callable that
    reverses one patch". Handles are numbered in installation order;
    [installed] lists the patches in place and [invoked] the handles called
    so far. Calling a handle reverses its patch; whether the call then
    throws is left to the oracle [fails]. *)
Record patcher := {
  installed : list nat;
  next : nat;
  invoked : list nat
}.

(** The life-cycle state: the module-level [cleanups] array and the host's
    patcher. *)
Record plugin := {
  cleanups : list nat;
  host : patcher
}.

Definition initial : plugin :=
  {| cleanups := []; host := {| installed := []; next := 0; invoked := [] |} |}.

(** [patcher.after(...)]: installs a patch and returns its handle. *)
Definition after : M plugin nat :=
  fun s =>
    let p := host s in
    (Ok (next p),
     {| cleanups := cleanups s;
        host := {| installed := next p :: installed p;
                   next := S (next p);
                   invoked := invoked p |} |}).

(** [cleanups.push(fn)] *)
Definition pushCleanup (fn : nat) : M plugin unit :=
  fun s => (Ok tt, {| cleanups := cleanups s ++ [fn]; host := host s |}).

(** [cleanups = []] *)
Definition clearCleanups : M plugin unit :=
  fun s => (Ok tt, {| cleanups := []; host := host s |}).

(** [fn()] for an unpatch handle. *)
Definition callHandle (fails : nat -> bool) (fn : nat) : M plugin unit :=
  fun s =>
    let p := host s in
    (if fails fn then Throw HostError else Ok tt,
     {| cleanups := cleanups s;
        host := {| installed := filter (fun x => negb (Nat.eqb x fn))
                                       (installed p);
                   next := next p;
                   invoked := invoked p ++ [fn] |} |}).

(** [xs.forEach(f)]: an exception thrown by [f] ends the iteration. *)
Fixpoint forEach {S A} (f : A -> M S unit) (xs : list A) : M S unit :=
  match xs with
  | [] => ret tt
  | x :: xs' => mbind (f x) (fun _ => forEach f xs')
  end.

(** The life-cycle invariant: the installed patches are those whose handle
    is in the clean-up list, once each; a handle called is never called
    again. *)
Definition lifecycle_inv (s : plugin) : Prop :=
  NoDup (cleanups s)
  /\ (forall id, id ∈ installed (host s) <-> id ∈ cleanups s)
  /\ (forall id, id ∈ cleanups s -> id < next (host s))
  /\ (forall id, id ∈ invoked (host s) -> id < next (host s))
  /\ NoDup (invoked (host s))
  /\ (forall id, id ∈ cleanups s -> id ∉ invoked (host s)).

End Host.

Import Host.

Notation "'let!' x ':=' m 'in' k" := (mbind m (fun x => k))
  (at level 10, x name, m at level 100, k at level 200, only parsing).
Notation "m ';;' k" := (mbind m (fun _ => k))
  (at level 100, k at level 200, right associativity, only parsing).

(** ** The list-returning variant ([src/src/index.ts]) *)

Module Index.

Record descriptor := {
  url : value;
  proxyUrl : value;
  isVideo : bool
}.

(** The descriptor as the JavaScript object it is: the properties of the
    object literal [{ url: ..., proxyUrl: ..., isVideo: ... }] pushed onto
    [media]. *)
Definition literal (d : descriptor) : gmap string value :=
  {[ "url" := url d; "proxyUrl" := proxyUrl d;
     "isVideo" := VBool (isVideo d) ]}.

(** The closure [() => favouriteMedia(media)] stored in the action item. *)
Inductive closure := FavouriteMedia (media : list descriptor).

Section Extract.
Context {F : Type}.
Implicit Types (h : gmap loc (obj F)).

(** The object literal built from [o] (an attachment, or the image or video
    field of an embed) when [o] is neither undefined nor null. *)
Definition mediaOf h (o : value) (video : bool) : descriptor :=
  {| url := prop h o "url";
     proxyUrl := js_or (js_or (prop h o "proxy_url") (prop h o "proxyURL"))
                       (prop h o "url");
     isVideo := video |}.

(** The object literal built for a gifv embed with the video field
    [video]. *)
Definition gifvOf h (embed video : value) : descriptor :=
  {| url := js_or (prop h embed "url") (prop h video "url");
     proxyUrl := js_or (js_or (prop h video "proxy_url")
                              (prop h video "proxyURL"))
                       (prop h video "url");
     isVideo := true |}.

(** Body of the attachments loop. *)
Definition extractAttachment h (att : value) : res (list descriptor) :=
  let* c := or_else (or_else (get h att "content_type")
                             (get h att "contentType"))
                    (Ok (VStr "")) in
  let* s := as_string c in
  let contentType := toLowerCase s in
  if startsWith contentType "image/" then
    let* u := get h att "url" in
    let* p := or_else (or_else (get h att "proxy_url")
                               (get h att "proxyURL"))
                      (get h att "url") in
    Ok [ {| url := u; proxyUrl := p; isVideo := false |} ]
  else if startsWith contentType "video/" then
    let* u := get h att "url" in
    let* p := or_else (or_else (get h att "proxy_url")
                               (get h att "proxyURL"))
                      (get h att "url") in
    Ok [ {| url := u; proxyUrl := p; isVideo := true |} ]
  else Ok [].

(** Body of the embeds loop: three independent [if] statements. *)
Definition extractEmbed h (embed : value) : res (list descriptor) :=
  let* ty := get h embed "type" in
  let* video := get h embed "video" in
  let* m1 :=
    if is_str ty "gifv" && truthy video then
      let* u := or_else (get h embed "url") (get h video "url") in
      let* p := or_else (or_else (get h video "proxy_url")
                                 (get h video "proxyURL"))
                        (get h video "url") in
      Ok [ {| url := u; proxyUrl := p; isVideo := true |} ]
    else Ok [] in
  let* image := get h embed "image" in
  let* m2 :=
    if truthy image then
      let* u := get h image "url" in
      let* p := or_else (or_else (get h image "proxy_url")
                                 (get h image "proxyURL"))
                        (get h image "url") in
      Ok [ {| url := u; proxyUrl := p; isVideo := false |} ]
    else Ok [] in
  let* m3 :=
    if truthy video && negb (is_str ty "gifv") then
      let* u := get h video "url" in
      let* p := or_else (or_else (get h video "proxy_url")
                                 (get h video "proxyURL"))
                        (get h video "url") in
      Ok [ {| url := u; proxyUrl := p; isVideo := true |} ]
    else Ok [] in
  Ok (m1 ++ m2 ++ m3).

(** [extractMedia(message)]: every image or video of the message. *)
Definition extractMedia h (message : value) : res (list descriptor) :=
  let* atts := get_opt h message "attachments" in
  let* m1 := match as_array h atts with
             | Some xs => collect (extractAttachment h) xs
             | None => Ok []
             end in
  let* embs := get_opt h message "embeds" in
  let* m2 := match as_array h embs with
             | Some xs => collect (extractEmbed h) xs
             | None => Ok []
             end in
  Ok (m1 ++ m2).
End Extract.

Implicit Types (h : gmap loc (obj closure)).

(** The object literal [{ label: "⭐ Favourite", onPress: () => ... }]. *)
Definition favouriteAction h (media : list descriptor)
  : value * gmap loc (obj closure) :=
  let '(lf, h1) := alloc h (OFun (FavouriteMedia media)) in
  let '(la, h2) :=
    alloc h1 (ORec {[ "label" := VStr "⭐ Favourite";
                      "onPress" := VRef lf ]}) in
  (VRef la, h2).

(** The [patcher.after] callback installed by [onEnable]: given the
    arguments and the return value of the host's action builder, it returns
    the new heap and the value handed back to the host. *)
Definition afterHook h (args : list value) (result : value)
  : res (gmap loc (obj closure) * value) :=
  let message := nth 0 args VUndefined in
  let* media := extractMedia h message in
  match media with
  | [] => Ok (h, result)
  | _ :: _ =>
      let '(fav, h1) := favouriteAction h media in
      match array_loc h1 result with
      | Some l => Ok (push h1 l fav, result)
      | None =>
          let* items := (if truthy result then get h1 result "items"
                         else Ok VUndefined) in
          match array_loc h1 items with
          | Some l => Ok (push h1 l fav, result)
          | None =>
              let* actions := (if truthy result then get h1 result "actions"
                               else Ok VUndefined) in
              match array_loc h1 actions with
              | Some l => Ok (push h1 l fav, result)
              | None => Ok (h1, result)
              end
          end
      end
  end.

(** The list in which the hook looks for the action items: the return value
    itself, else its [items], else its [actions]. *)
Definition target h (result : value) : option loc :=
  match array_loc h result with
  | Some l => Some l
  | None =>
      match array_loc h (prop h result "items") with
      | Some l => Some l
      | None => array_loc h (prop h result "actions")
      end
  end.

(** The hook appends exactly one item to the array at [l], a new favourite
    item whose closure holds a media list that starts with [d]; it hands
    back [result] itself and changes no other cell. *)
Definition appends_favourite h (args : list value) (result : value)
  (l : loc) (d : descriptor) : Prop :=
  exists h' fav rest,
    afterHook h args result = Ok (h', result)
    /\ appended h h' l fav
    /\ favourite_item h h' fav (FavouriteMedia (d :: rest)).

(** *** The favourite handler *)

(** What the handler finds in the host when it runs. [shareOpen] is the
    [open] property of the [Share] object that line 42 takes from
    [react-native]: [None] when it is not a function, else what a call of
    it does (it resolves, or it throws or is rejected). The [Share] of
    react-native has the function [share] and no [open]. *)
Record env := {
  findFavorites : lookup favModule;   (* findByProps("addToFavorites") *)
  platformIsAndroid : bool;           (* Platform.OS === "android" *)
  toastAndroid : outcome;             (* ToastAndroid.showWithGravity *)
  shareOpen : option outcome          (* Share.open *)
}.

(** [findFavoritesModule()]: a failing lookup gives [null]. *)
Definition findFavoritesModule (e : env) : option favModule :=
  match findFavorites e with
  | Found m => Some m
  | Missing => None
  | LookupThrows => None
  end.

(** [showToast(message)]: a toast on Android, nothing elsewhere. *)
Definition showToast (e : env) (message : string) : M (list event) unit :=
  if platformIsAndroid e then host_call (Toast message) (toastAndroid e)
  else ret tt.

(** The argument object of [addToFavorites]. *)
Definition favouriteArg (target : descriptor) : list (string * value) :=
  [ ("src", if truthy (proxyUrl target) then proxyUrl target else url target);
    ("url", url target);
    ("format", VNum (if isVideo target then 2 else 1)) ].

(** [Share.open({ message, title })]: calling what is not a function
    throws a [TypeError] before the host sees a call. *)
Definition callShareOpen (e : env) (message : value) : M (list event) unit :=
  match shareOpen e with
  | Some o => host_call (ShareOpen message) o
  | None => throw TypeError
  end.

(** [favouriteMedia(mediaList)]. The [try] block ends in [return]: it
    yields [true] when the handler is done, [false] to fall through to the
    share call. *)
Definition favouriteMedia (e : env) (mediaList : list descriptor)
  : M (list event) unit :=
  match mediaList with
  | [] => ret tt
  | target :: _ =>
      let! done :=
        match findFavoritesModule e with
        | Some {| addToFavorites := Some o |} =>
            try_catch
              (host_call (AddToFavorites (favouriteArg target)) o ;;
               showToast e "Added to favourites ⭐" ;;
               ret true)
              (fun _ => emit (Log "addToFavorites threw") ;; ret false)
        | _ => ret false
        end in
      if done then ret tt
      else
        try_catch
          (callShareOpen e (url target))
          (fun _ => emit (Log "Share.open cancelled or failed"))
  end.

(** Pressing an action item: the call of its [onPress] closure. *)
Definition press (e : env) (c : closure) : M (list event) unit :=
  match c with
  | FavouriteMedia media => favouriteMedia e media
  end.

(** *** Life cycle *)

Definition candidates : list string :=
  [ "getMessageActions"; "messageActions"; "buildMessageActions";
    "MessageActions" ].

(** The loop of [findMessageActionsModule()] over the candidate keys: a
    lookup that throws or finds nothing moves on to the next key. *)
Fixpoint firstModule (findByProps : string -> lookup unit)
  (keys : list string) : option string :=
  match keys with
  | [] => None
  | key :: keys' =>
      match findByProps key with
      | Found _ => Some key
      | _ => firstModule findByProps keys'
      end
  end.

Definition findMessageActionsModule (findByProps : string -> lookup unit)
  : option string :=
  firstModule findByProps candidates.

(** [onEnable()]: patches the action builder when it is found. *)
Definition onEnable (findByProps : string -> lookup unit) : M plugin unit :=
  match findMessageActionsModule findByProps with
  | None => ret tt
  | Some actionsKey =>
      let! unpatch := after in
      pushCleanup unpatch
  end.

(** [onDisable()] *)
Definition onDisable (fails : nat -> bool) : M plugin unit :=
  fun s =>
    (forEach (fun fn => try_catch (callHandle fails fn) (fun _ => ret tt))
             (cleanups s) ;;
     clearCleanups) s.

Inductive lifecycle :=
  | Enable (findByProps : string -> lookup unit)
  | Disable.

Definition step (fails : nat -> bool) (c : lifecycle) : M plugin unit :=
  match c with
  | Enable findByProps => onEnable findByProps
  | Disable => onDisable fails
  end.

(** The plugin after a sequence of life-cycle calls. *)
Definition run (fails : nat -> bool) (cs : list lifecycle) (s : plugin)
  : plugin :=
  fold_left (fun s c => snd (step fails c s)) cs s.

End Index.

(** ** The first-match variant ([src/unnamed/part_000], second document) *)

Module Metro.

Record descriptor := {
  url : value;
  proxyURL : value;
  width : value;
  height : value;
  isVideo : bool
}.

(** The descriptor as the JavaScript object it is: the properties of the
    object literal [{ url: ..., proxyURL: ..., width: ..., height: ...,
    isVideo: ... }] returned by [extractMedia]. *)
Definition literal (d : descriptor) : gmap string value :=
  {[ "url" := url d; "proxyURL" := proxyURL d; "width" := width d;
     "height" := height d; "isVideo" := VBool (isVideo d) ]}.

Section Extract.
Context {F : Type}.
Implicit Types (h : gmap loc (obj F)).

(** The object literal built from [o] (an attachment, or the image or video
    field of an embed) when [o] is neither undefined nor null. *)
Definition mediaOf h (o : value) (video : bool) : descriptor :=
  {| url := prop h o "url";
     proxyURL := js_or (prop h o "proxy_url") (prop h o "url");
     width := js_or (prop h o "width") (VNum 0);
     height := js_or (prop h o "height") (VNum 0);
     isVideo := video |}.

(** The object literal built for a gifv embed with the video field
    [video]. *)
Definition gifvOf h (embed video : value) : descriptor :=
  {| url := js_or (prop h embed "url") (prop h video "url");
     proxyURL := js_or (js_or (prop h video "proxy_url")
                              (prop h video "url"))
                       (prop h embed "url");
     width := js_or (prop h video "width") (VNum 0);
     height := js_or (prop h video "height") (VNum 0);
     isVideo := true |}.

(** Body of the attachments loop. *)
Definition extractAttachment h (att : value) : res (option descriptor) :=
  let* c := or_else (get h att "content_type") (Ok (VStr "")) in
  let* s := as_string c in
  let ct := before_semicolon s in
  if startsWith ct "image/" || startsWith ct "video/" then
    let* u := get h att "url" in
    let* p := or_else (get h att "proxy_url") (get h att "url") in
    let* w := or_else (get h att "width") (Ok (VNum 0)) in
    let* ht := or_else (get h att "height") (Ok (VNum 0)) in
    Ok (Some {| url := u; proxyURL := p; width := w; height := ht;
                isVideo := startsWith ct "video/" |})
  else Ok None.

(** Body of the embeds loop. *)
Definition extractEmbed h (embed : value) : res (option descriptor) :=
  let* ty := get h embed "type" in
  let* video := get h embed "video" in
  if is_str ty "gifv" && truthy video then
    let* u := or_else (get h embed "url") (get h video "url") in
    let* p := or_else (or_else (get h video "proxy_url") (get h video "url"))
                (get h embed "url") in
    let* w := or_else (get h video "width") (Ok (VNum 0)) in
    let* ht := or_else (get h video "height") (Ok (VNum 0)) in
    Ok (Some {| url := u; proxyURL := p; width := w; height := ht;
                isVideo := true |})
  else if truthy video then
    let* u := get h video "url" in
    let* p := or_else (get h video "proxy_url") (get h video "url") in
    let* w := or_else (get h video "width") (Ok (VNum 0)) in
    let* ht := or_else (get h video "height") (Ok (VNum 0)) in
    Ok (Some {| url := u; proxyURL := p; width := w; height := ht;
                isVideo := true |})
  else
    let* image := get h embed "image" in
    if truthy image then
      let* u := get h image "url" in
      let* p := or_else (get h image "proxy_url") (get h image "url") in
      let* w := or_else (get h image "width") (Ok (VNum 0)) in
      let* ht := or_else (get h image "height") (Ok (VNum 0)) in
      Ok (Some {| url := u; proxyURL := p; width := w; height := ht;
                  isVideo := false |})
    else Ok None.

(** [extractMedia(message)]: the first image or video, or [null]. *)
Definition extractMedia h (message : value) : res (option descriptor) :=
  if negb (truthy message) then Ok None else
  let* atts := get h message "attachments" in
  let* r := match as_array h atts with
      | Some xs => first_some (extractAttachment h) xs
      | None => Ok None
      end in
  match r with
  | Some d => Ok (Some d)
  | None =>
      let* embs := get h message "embeds" in
      match as_array h embs with
      | Some xs => first_some (extractEmbed h) xs
      | None => Ok None
      end
  end.
End Extract.


(** The [onPress] closure of [buildFavouriteAction(media)]. *)
Inductive closure := OnPress (media : descriptor).

Implicit Types (h : gmap loc (obj closure)).

(** [buildFavouriteAction(media)]: the object literal
    [{ key, label, onPress }]. *)
Definition buildFavouriteAction h (media : descriptor)
  : value * gmap loc (obj closure) :=
  let '(lf, h1) := alloc h (OFun (OnPress media)) in
  let '(la, h2) :=
    alloc h1 (ORec {[ "key" := VStr "favouriteAnything";
                      "label" := VStr "⭐ Favourite";
                      "onPress" := VRef lf ]}) in
  (VRef la, h2).

(** [a && a.k] *)
Definition and_get h (a : value) (k : string) : res value :=
  if truthy a then get h a k else Ok a.

(** Body of the loop over [ret.props.children]: the options array of the
    child, if it has one. *)
Definition childOptions h (child : value) : res (option loc) :=
  let* p := and_get h child "props" in
  if truthy p then
    let* o := get h p "options" in
    Ok (array_loc h o)
  else Ok None.

(** [ret.push(buildFavouriteAction(media))] on the array at [l]. *)
Definition pushFavourite h (l : loc) (media : descriptor)
  : gmap loc (obj closure) :=
  let '(fav, h1) := buildFavouriteAction h media in
  push h1 l fav.

(** [(args[0] && args[0].message) || args[0] || null] *)
Definition messageOf h (args : list value) : res value :=
  let a0 := nth 0 args VUndefined in
  or_else (or_else (and_get h a0 "message") (Ok a0)) (Ok VNull).

(** The [afterActions] callback of [applyPatch]. *)
Definition afterActions h (args : list value) (ret : value)
  : res (gmap loc (obj closure) * value) :=
  let* message := messageOf h args in
  let* media := extractMedia h message in
  match media with
  | None => Ok (h, ret)
  | Some d =>
      match array_loc h ret with
      | Some l => Ok (pushFavourite h l d, ret)
      | None =>
          let* props := and_get h ret "props" in
          if truthy props then
            let* options := get h props "options" in
            match array_loc h options with
            | Some l => Ok (pushFavourite h l d, ret)
            | None =>
                let* children := get h props "children" in
                match as_array h children with
                | Some cs =>
                    let* found := first_some (childOptions h) cs in
                    match found with
                    | Some l => Ok (pushFavourite h l d, ret)
                    | None => Ok (h, ret)
                    end
                | None => Ok (h, ret)
                end
            end
          else Ok (h, ret)
      end
  end.

(** The options array of a child of [ret.props.children], if any. *)
Definition child_options h (child : value) : option loc :=
  if truthy child && truthy (prop h child "props")
  then array_loc h (prop h (prop h child "props") "options")
  else None.

Fixpoint first_loc (f : value -> option loc) (xs : list value)
  : option loc :=
  match xs with
  | [] => None
  | x :: xs' =>
      match f x with
      | Some l => Some l
      | None => first_loc f xs'
      end
  end.

(** The list in which the hook looks for the action items: the return value
    itself, else its [props.options], else the [props.options] of the first
    element of [props.children] that has one. *)
Definition target h (ret : value) : option loc :=
  match array_loc h ret with
  | Some l => Some l
  | None =>
      let props := prop h ret "props" in
      if truthy props then
        match array_loc h (prop h props "options") with
        | Some l => Some l
        | None =>
            match as_array h (prop h props "children") with
            | Some cs => first_loc (child_options h) cs
            | None => None
            end
        end
      else None
  end.

(** The hook appends exactly one item to the array at [l], a new favourite
    item whose closure holds the descriptor [d]; it hands back [ret] itself
    and changes no other cell. *)
Definition appends_favourite h (args : list value) (ret : value)
  (l : loc) (d : descriptor) : Prop :=
  exists h' fav,
    afterActions h args ret = Ok (h', ret)
    /\ appended h h' l fav
    /\ favourite_item h h' fav (OnPress d).

(** *** The favourite handler *)

(** What the handler finds in the host when it runs. *)
Record env := {
  findFavorites : lookup favModule;
      (* findByProps("addToFavorites", "removeFromFavorites") *)
  findShowToast : lookup (option outcome)
      (* findByProps("showToast"), with its showToast property if any *)
}.

(** The handler's state: the calls made and the [_favouritesAPI] cache. *)
Record hstate := {
  trace : list event;
  _favouritesAPI : option favModule
}.

Definition log (e : event) : M hstate unit :=
  fun s => (Ok tt, {| trace := trace s ++ [e];
                      _favouritesAPI := _favouritesAPI s |}).

Definition call (e : event) (o : outcome) : M hstate unit :=
  fun s => (match o with Returns => Ok tt | Throws => Throw HostError end,
            {| trace := trace s ++ [e];
               _favouritesAPI := _favouritesAPI s |}).

(** [getFavouritesAPI()]: the cached module, else a guarded lookup whose
    result is cached. *)
Definition getFavouritesAPI (e : env) : M hstate (option favModule) :=
  fun s =>
    match _favouritesAPI s with
    | Some m => (Ok (Some m), s)
    | None =>
        match findFavorites e with
        | Found m => (Ok (Some m), {| trace := trace s;
                                       _favouritesAPI := Some m |})
        | Missing => (Ok None, s)
        | LookupThrows =>
            (Ok None,
             {| trace := trace s ++ [Log "Could not find favourites API"];
                _favouritesAPI := None |})
        end
    end.

(** [const { showToast } = findByProps("showToast") || {};
     if (showToast) showToast(msg, kind);] *)
Definition toast (e : env) (msg : string) : M hstate unit :=
  match findShowToast e with
  | LookupThrows => throw HostError
  | Missing => ret tt
  | Found None => ret tt
  | Found (Some o) => call (Toast msg) o
  end.

(** The argument object of [addToFavorites]. *)
Definition favouriteArg (media : descriptor) : list (string * value) :=
  [ ("src", proxyURL media);
    ("url", url media);
    ("width", width media);
    ("height", height media);
    ("format", VNum (if isVideo media then 2 else 1)) ].

(** The [onPress] function of [buildFavouriteAction(media)]. *)
Definition onPress (e : env) (media : descriptor) : M hstate unit :=
  let! api := getFavouritesAPI e in
  match api with
  | Some {| addToFavorites := Some o |} =>
      try_catch
        (call (AddToFavorites (favouriteArg media)) o ;;
         toast e "Added to Favourites ⭐")
        (fun _ =>
           log (Log "addToFavorites threw") ;;
           toast e "Failed to favourite — check console.")
  | _ => toast e "Favourites API unavailable on this Discord build."
  end.

(** Pressing an action item: the call of its [onPress] closure. *)
Definition press (e : env) (c : closure) : M hstate unit :=
  match c with
  | OnPress media => onPress e media
  end.

End Metro.

(** ** The render-overlay variant ([src/unnamed/part_000], first document):
    life cycle *)

Module Overlay.

(** What [onEnable] finds in the host: for a module, whether it has the
    function to patch. *)
Record env := {
  requirePatcher : lookup unit;
  findMediaOverlay : lookup bool;   (* has renderOverlayContent *)
  findEmbedByProps : lookup bool;   (* has render *)
  findEmbedByName : lookup bool     (* has render *)
}.

(** [findMediaOverlayModule()] *)
Definition findMediaOverlayModule (e : env) : option bool :=
  match findMediaOverlay e with
  | Found m => Some m
  | _ => None
  end.

(** [findEmbedModule()] *)
Definition findEmbedModule (e : env) : option bool :=
  match findEmbedByProps e with
  | Found m => Some m
  | _ =>
      match findEmbedByName e with
      | Found m => Some m
      | _ => None
      end
  end.

(** [patchMediaComponent(patcher, target)] and
    [patchEmbedRenderer(patcher, embedModule)]: [null] without a patcher or
    a target, else the handle of the installed patch. *)
Definition patchComponent (patcher target : bool) : M plugin (option nat) :=
  if negb target || negb patcher then ret None
  else let! unpatch := after in ret (Some unpatch).

(** [if (cleanup) cleanups.push(cleanup);] *)
Definition pushIfAny (cleanup : option nat) : M plugin unit :=
  match cleanup with
  | Some fn => pushCleanup fn
  | None => ret tt
  end.

(** [onEnable()] *)
Definition onEnable (e : env) : M plugin unit :=
  match requirePatcher e with
  | LookupThrows => ret tt
  | loaded =>
      let patcher := match loaded with Found _ => true | _ => false end in
      (match findMediaOverlayModule e with
       | Some target =>
           let! cleanup := patchComponent patcher target in
           pushIfAny cleanup
       | None => ret tt
       end) ;;
      (match findEmbedModule e with
       | Some target =>
           let! cleanup := patchComponent patcher target in
           pushIfAny cleanup
       | None => ret tt
       end)
  end.

(** [onDisable()] *)
Definition onDisable (fails : nat -> bool) : M plugin unit :=
  fun s =>
    (forEach (fun fn => try_catch (callHandle fails fn) (fun _ => ret tt))
             (cleanups s) ;;
     clearCleanups) s.

Inductive lifecycle :=
  | Enable (e : env)
  | Disable.

Definition step (fails : nat -> bool) (c : lifecycle) : M plugin unit :=
  match c with
  | Enable e => onEnable e
  | Disable => onDisable fails
  end.

(** The plugin after a sequence of life-cycle calls. *)
Definition run (fails : nat -> bool) (cs : list lifecycle) (s : plugin)
  : plugin :=
  fold_left (fun s c => snd (step fails c s)) cs s.

End Overlay.

(** ** The spec's words, and the messages of its examples *)

Module Spec.

(** "Attachment content-type matching is case-insensitive and matches on
    MIME-type prefix only (parameters after [;] ignored)": the kind of an
    attachment, [Some true] for a video, [Some false] for an image. *)
Definition mime_kind (contentType : string) : option bool :=
  let mime := toLowerCase (before_semicolon contentType) in
  if startsWith mime "image/" then Some false
  else if startsWith mime "video/" then Some true
  else None.

(** The descriptor of the spec's example, as the object it writes:
    [{url: "a.png", proxyUrl: "a.png", isVideo: false, width: 100,
    height: 50}]. *)
Definition png_descriptor : gmap string value :=
  {[ "url" := VStr "a.png"; "proxyUrl" := VStr "a.png";
     "isVideo" := VBool false; "width" := VNum 100; "height" := VNum 50 ]}.

Section Messages.
Context {F : Type}.
Implicit Types (h : gmap loc (obj F)).

(** The elements a [for ... of] loop visits: those of [v] when it is an
    array, none otherwise (the loops are guarded by [Array.isArray]). *)
Definition elements h (v : value) : list value :=
  default [] (as_array h v).

(** "A message-like record, possibly absent/partial": any value, whose
    attachments and embeds, when present, are records, a content type being
    a string when present. *)
Definition string_or_falsy (v : value) : bool :=
  match v with
  | VStr _ => true
  | _ => negb (truthy v)
  end.

Definition attachment_like h (att : value) : bool :=
  negb (nullish att)
  && string_or_falsy (prop h att "content_type")
  && string_or_falsy (prop h att "contentType").

Definition embed_like (embed : value) : bool := negb (nullish embed).

Definition message_like h (message : value) : bool :=
  forallb (attachment_like h) (elements h (prop h message "attachments"))
  && forallb embed_like (elements h (prop h message "embeds")).

(** "Messages with no image/video attachment or embed": no attachment has
    a content type of kind image or video, no embed has a video or an image
    field. *)
Definition no_kind (contentType : value) : bool :=
  match contentType with
  | VStr s => match mime_kind s with None => true | Some _ => false end
  | _ => negb (truthy contentType)
  end.

Definition attachment_without_media h (att : value) : bool :=
  negb (nullish att)
  && no_kind (prop h att "content_type")
  && no_kind (prop h att "contentType").

Definition embed_without_media h (embed : value) : bool :=
  negb (nullish embed)
  && negb (truthy (prop h embed "video"))
  && negb (truthy (prop h embed "image")).

Definition no_media h (message : value) : bool :=
  forallb (attachment_without_media h)
          (elements h (prop h message "attachments"))
  && forallb (embed_without_media h)
             (elements h (prop h message "embeds")).

End Messages.

Section Records.
Context {F : Type}.
Implicit Types (h : gmap loc (obj F)).


End Records.

End Spec.

Module Samples.

Section Messages.
Context {F : Type}.

(** A message with one attachment, whose properties are [att]. *)
Definition one_attachment (att : gmap string value) : gmap loc (obj F) :=
  {[ 0 := ORec {[ "attachments" := VRef 1 ]};
     1 := OArr [VRef 2];
     2 := ORec att ]}.

(** [{attachments: [{url: "a.png", content_type: "image/png; charset=x",
                     width: 100, height: 50}]}] *)
Definition png_message : gmap loc (obj F) :=
  one_attachment {[ "url" := VStr "a.png";
                    "content_type" := VStr "image/png; charset=x";
                    "width" := VNum 100;
                    "height" := VNum 50 ]}.

(** The same attachment with an upper-case content type. *)
Definition upper_message : gmap loc (obj F) :=
  one_attachment {[ "url" := VStr "a.png";
                    "content_type" := VStr "IMAGE/PNG; charset=x";
                    "width" := VNum 100;
                    "height" := VNum 50 ]}.

(** The same attachment with the bare content type [image/png]. *)
Definition plain_message : gmap loc (obj F) :=
  one_attachment {[ "url" := VStr "a.png";
                    "content_type" := VStr "image/png";
                    "width" := VNum 100;
                    "height" := VNum 50 ]}.


(** A message with one embed [{type: ty, video: {url: "v.mp4"},
    image: {url: "i.png"}}]. *)
Definition video_image_embed (ty : string) : gmap loc (obj F) :=
  {[ 0 := ORec {[ "embeds" := VRef 1 ]};
     1 := OArr [VRef 2];
     2 := ORec {[ "type" := VStr ty; "video" := VRef 3; "image" := VRef 4 ]};
     3 := ORec {[ "url" := VStr "v.mp4" ]};
     4 := ORec {[ "url" := VStr "i.png" ]} ]}.



End Messages.

(** The descriptor of the spec's example. *)
Definition png : Metro.descriptor :=
  {| Metro.url := VStr "a.png"; Metro.proxyURL := VStr "a.png";
     Metro.width := VNum 100; Metro.height := VNum 50;
     Metro.isVideo := false |}.

Section Calls.
Context {F : Type}.

(** A call of the action builder: the message of the spec's example at 0,
    and possible return values: the array of action items at 3, the records
    [{items: ...}] at 5, [{options: ...}] at 6 and
    [{props: {options: ...}}] at 7, all around the same array. *)
Definition png_call : gmap loc (obj F) :=
  {[ 0 := ORec {[ "attachments" := VRef 1 ]};
     1 := OArr [VRef 2];
     2 := ORec {[ "url" := VStr "a.png";
                  "content_type" := VStr "image/png; charset=x";
                  "width" := VNum 100;
                  "height" := VNum 50 ]};
     3 := OArr [VRef 4];
     4 := ORec {[ "label" := VStr "Reply" ]};
     5 := ORec {[ "items" := VRef 3 ]};
     6 := ORec {[ "options" := VRef 3 ]};
     7 := ORec {[ "props" := VRef 6 ]} ]}.

(** A call on a message whose only attachment is a text file. *)
Definition text_call : gmap loc (obj F) :=
  {[ 0 := ORec {[ "attachments" := VRef 1 ]};
     1 := OArr [VRef 2];
     2 := ORec {[ "url" := VStr "a.txt";
                  "content_type" := VStr "text/plain" ]};
     3 := OArr [VRef 4];
     4 := ORec {[ "label" := VStr "Reply" ]} ]}.

End Calls.

End Samples.

(** ** The render hooks of the render-overlay variant
    ([src/unnamed/part_000], first document) *)

Module OverlayRender.

(** The props of [<FavouriteAccessory .../>]. *)
Record accessoryProps := {
  url : value;
  proxyUrl : value;
  width : value;
  height : value;
  video : bool
}.

(** What a patched render function hands back: the original element, or
    [<View style={{flex: 1}}>{result}<FavouriteAccessory .../></View>]. *)
Inductive rendered :=
  | Original (result : value)
  | Overlaid (result : value) (accessory : accessoryProps).

(** The [TouchableOpacity] drawn by [FavouriteAccessory]. *)
Record button := {
  accessibilityLabel : string;
  glyph : string
}.

(** What the module-level bindings hold when the hooks and the component
    run. [React] tells whether the binding of line 20,
    [const { React } = require("react")], is defined: it is the [React]
    property of the module [react], which the react package does not have
    (it exports [createElement], [useState], ... themselves), so that the
    binding is undefined there. [classicJsx] tells how the JSX of the file
    is compiled: to [React.createElement(...)] calls through that binding
    (the classic transform), or to calls of the automatic runtime, which do
    not use it. *)
Record imports := {
  React : bool;
  classicJsx : bool
}.

(** [React.f(...)]: a [TypeError] when the binding is undefined. *)
Definition viaReact (i : imports) : res unit :=
  if React i then Ok tt else Throw TypeError.

(** A JSX expression [<C ...>...</C>]. *)
Definition jsx (i : imports) : res unit :=
  if classicJsx i then viaReact i else Ok tt.

(** One call of [FavouriteAccessory(props)], [favourited] being the state
    that [React.useState] hands out: [null] without url, width or height,
    after the call of [useState]; else [useCallback] is called and the
    button is built. *)
Definition FavouriteAccessory (i : imports) (p : accessoryProps)
  (favourited : bool) : res (option button) :=
  let* _ := viaReact i in
  if negb (truthy (url p)) || negb (truthy (width p))
     || negb (truthy (height p))
  then Ok None
  else
    let* _ := viaReact i in
    let* _ := jsx i in
    Ok (Some {| accessibilityLabel :=
                  if favourited then "Remove from favourites"
                  else "Add to favourites";
                glyph := if favourited then "★" else "☆" |}).

Section Hooks.
Context {F : Type}.
Implicit Types (h : gmap loc (obj F)).

(** [(v || {}).k]: the empty object literal has no property. *)
Definition orEmpty h (v : value) (k : string) : res value :=
  if truthy v then get h v k else Ok VUndefined.

(** The [afterMediaRender] callback of [patchMediaComponent]. *)
Definition afterMediaRender (i : imports) h (args : list value)
  (result : value) : res rendered :=
  let props := nth 0 args VUndefined in
  let* src := or_else (or_else (or_else (orEmpty h props "src")
                                        (orEmpty h props "proxyURL"))
                               (orEmpty h props "url"))
                      (Ok (VStr "")) in
  let* u := or_else (orEmpty h props "url") (Ok src) in
  let* w := or_else (orEmpty h props "width") (Ok (VNum 0)) in
  let* ht := or_else (orEmpty h props "height") (Ok (VNum 0)) in
  let* v := orEmpty h props "video" in
  let* iv := orEmpty h props "isVideo" in
  let isVideo := truthy v || truthy iv in
  if negb (truthy src) && negb (truthy u) then Ok (Original result)
  else
    let* _ := jsx i in
    Ok (Overlaid result
          {| url := u; proxyUrl := src; width := w; height := ht;
             video := isVideo |}).

(** The [afterEmbedRender] callback of [patchEmbedRenderer]. *)
Definition afterEmbedRender (i : imports) h (args : list value)
  (result : value) : res rendered :=
  let a0 := nth 0 args VUndefined in
  let* embed := or_else (get_opt h a0 "embed") (Ok a0) in
  let* content := or_else (orEmpty h embed "image")
                          (orEmpty h embed "video") in
  if negb (truthy content) then Ok (Original result)
  else
    let* ty := orEmpty h embed "type" in
    let* u := or_else (or_else (if is_str ty "gifv"
                                then orEmpty h embed "url"
                                else Ok (VBool false))
                               (get h content "url"))
                      (Ok (VStr "")) in
    let* p := or_else (get h content "proxyURL") (Ok u) in
    let* w := or_else (get h content "width") (Ok (VNum 0)) in
    let* ht := or_else (get h content "height") (Ok (VNum 0)) in
    let* v := orEmpty h embed "video" in
    let isVideo := truthy v in
    if negb (truthy u) || negb (truthy w) || negb (truthy ht)
    then Ok (Original result)
    else
      let* _ := jsx i in
      Ok (Overlaid result
            {| url := u; proxyUrl := p; width := w; height := ht;
               video := isVideo |}).
End Hooks.

(** What the element handed back shows of the favourite button when it is
    rendered: nothing for the original element, else what the call of the
    accessory gives. *)
Definition shownButton (i : imports) (r : rendered) (favourited : bool)
  : res (option button) :=
  match r with
  | Original _ => Ok None
  | Overlaid _ p => FavouriteAccessory i p favourited
  end.

(** *** The press handler of the accessory *)

(** The [addToFavorites] property of the component found: absent (falsy),
    present but not callable, or a function. *)
Inductive method :=
  | Absent
  | NotCallable
  | Function (o : outcome).

(** What [findFavoriteButtonComponent] finds in the host. *)
Record env := {
  findComponentByName : lookup method;   (* "GifFavoriteButton" *)
  findByDisplayName : lookup method;     (* "GifFavoriteButton" *)
  findByProps : lookup method            (* "gifFavoriteButton" *)
}.

(** [findFavoriteButtonComponent()]: the first [try] block holds
    [a() || b()], so that a throwing [a] skips [b]; the second lookup runs
    when the first block gave nothing. *)
Definition findFavoriteButtonComponent (e : env) : option method :=
  let comp :=
    match findComponentByName e with
    | Found m => Some m
    | LookupThrows => None
    | Missing =>
        match findByDisplayName e with
        | Found m => Some m
        | _ => None
        end
    end in
  match comp with
  | Some m => Some m
  | None =>
      match findByProps e with
      | Found m => Some m
      | _ => None
      end
  end.

(** The argument object of [addToFavorites]. *)
Definition favouriteArg (p : accessoryProps) : list (string * value) :=
  [ ("src", js_or (proxyUrl p) (url p));
    ("url", url p);
    ("format", VNum (if video p then 2 else 1));
    ("width", width p);
    ("height", height p) ].

(** [FavouriteButton.addToFavorites(arg)]: calling what is not a function
    throws before the host sees a call. *)
Definition callMethod (m : method) (arg : list (string * value))
  : M (list event) unit :=
  match m with
  | Function o => host_call (AddToFavorites arg) o
  | _ => throw TypeError
  end.

(** [handlePress()]: returns the new [favourited] state. *)
Definition handlePress (e : env) (p : accessoryProps) (favourited : bool)
  : M (list event) bool :=
  (match findFavoriteButtonComponent e with
   | Some Absent => ret tt
   | Some m =>
       try_catch (callMethod m (favouriteArg p))
                 (fun _ => emit (Log "addToFavorites failed"))
   | None => ret tt
   end) ;;
  ret (negb favourited).

End OverlayRender.

(** ** The life cycle of the first-match variant
    ([src/unnamed/part_000], second document) *)

Module MetroLoad.

(** The message-actions module: which of its properties are functions. *)
Record actionsModule := { isFunction : string -> bool }.

(** What [applyPatch] finds in the host. *)
Record env := {
  findActions : lookup actionsModule;
      (* findByProps("markAsUnread", "suppressEmbeds") *)
  bunnyPatcher : bool
      (* (window.bunny || {}).patcher is there *)
}.

(** The module-level variables and the host's patcher. *)
Record state := {
  favouritesAPI : option favModule;       (* _favouritesAPI *)
  messageActions : option actionsModule;  (* _messageActions *)
  unpatch : option nat;
  patches : patcher
}.

Definition initial : state :=
  {| favouritesAPI := None; messageActions := None; unpatch := None;
     patches := {| installed := []; next := 0; invoked := [] |} |}.

(** [getMessageActionsModule()]: the cached module, else a guarded lookup
    whose result is cached. *)
Definition getMessageActionsModule (e : env) : M state (option actionsModule) :=
  fun s =>
    match messageActions s with
    | Some m => (Ok (Some m), s)
    | None =>
        match findActions e with
        | Found m =>
            (Ok (Some m),
             {| favouritesAPI := favouritesAPI s; messageActions := Some m;
                unpatch := unpatch s; patches := patches s |})
        | _ => (Ok None, s)
        end
    end.

Definition candidates : list string := [ "getActions"; "buildActions"; "default" ].

(** The loop resolving [patchKey]: the first candidate that is a function
    of the module. *)
Fixpoint firstFunction (m : actionsModule) (names : list string)
  : option string :=
  match names with
  | [] => None
  | name :: names' =>
      if isFunction m name then Some name else firstFunction m names'
  end.

(** [unpatch = patcher.after(patchKey, mod, afterActions)] *)
Definition installPatch : M state unit :=
  fun s =>
    let p := patches s in
    (Ok tt,
     {| favouritesAPI := favouritesAPI s; messageActions := messageActions s;
        unpatch := Some (next p);
        patches := {| installed := next p :: installed p;
                      next := S (next p);
                      invoked := invoked p |} |}).

(** [applyPatch()] *)
Definition applyPatch (e : env) : M state unit :=
  mbind (getMessageActionsModule e) (fun found =>
    match found with
    | None => ret tt
    | Some m =>
        if negb (bunnyPatcher e) then ret tt
        else
          match firstFunction m candidates with
          | None => ret tt
          | Some patchKey => installPatch
          end
    end).

(** [onLoad()] *)
Definition onLoad (e : env) : M state unit := applyPatch e.

(** [unpatch()] for the stored handle. *)
Definition callUnpatch (fails : nat -> bool) (fn : nat) : M state unit :=
  fun s =>
    let p := patches s in
    (if fails fn then Throw HostError else Ok tt,
     {| favouritesAPI := favouritesAPI s; messageActions := messageActions s;
        unpatch := unpatch s;
        patches := {| installed := filter (fun x => negb (Nat.eqb x fn))
                                          (installed p);
                      next := next p;
                      invoked := invoked p ++ [fn] |} |}).

(** [unpatch = null] *)
Definition clearUnpatch : M state unit :=
  fun s =>
    (Ok tt,
     {| favouritesAPI := favouritesAPI s; messageActions := messageActions s;
        unpatch := None; patches := patches s |}).

(** [_favouritesAPI = null; _messageActions = null] *)
Definition clearCaches : M state unit :=
  fun s =>
    (Ok tt,
     {| favouritesAPI := None; messageActions := None;
        unpatch := unpatch s; patches := patches s |}).

(** [onUnload()]: the call of the handle is not guarded. *)
Definition onUnload (fails : nat -> bool) : M state unit :=
  fun s =>
    ((match unpatch s with
      | Some fn => mbind (callUnpatch fails fn) (fun _ => clearUnpatch)
      | None => ret tt
      end) ;;
     clearCaches) s.

Inductive lifecycle :=
  | Load (e : env)
  | Unload.

Definition step (fails : nat -> bool) (c : lifecycle) : M state unit :=
  match c with
  | Load e => onLoad e
  | Unload => onUnload fails
  end.

(** The plugin after a sequence of life-cycle calls. *)
Definition run (fails : nat -> bool) (cs : list lifecycle) (s : state)
  : state :=
  fold_left (fun s c => snd (step fails c s)) cs s.

End MetroLoad.

(** ** Conditions used by the statements on the handlers *)

(** The [try] block of [favouriteMedia] of [src/src/index.ts] runs to its
    [return]: [addToFavorites] is a function that returns, and the toast
    (shown on Android only) does not throw. *)
Definition favourites_call_succeeds (e : Index.env) : bool :=
  match Index.findFavoritesModule e with
  | Some {| addToFavorites := Some Returns |} =>
      negb (Index.platformIsAndroid e)
      || match Index.toastAndroid e with Returns => true | Throws => false end
  | _ => false
  end.

(** The toast of the first-match variant cannot throw: the lookup of the
    toast module does not throw, nor does its [showToast]. *)
Definition toast_is_safe (e : Metro.env) : bool :=
  match Metro.findShowToast e with
  | LookupThrows => false
  | Found (Some Throws) => false
  | _ => true
  end.

Module RenderSamples.

Section Heaps.
Context {F : Type}.

(** The render call [render({embed: {type: "rich", image: {...},
    video: {...}}})], the image having a url and a size. *)
Definition image_video_embed : gmap loc (obj F) :=
  {[ 0 := ORec {[ "embed" := VRef 1 ]};
     1 := ORec {[ "type" := VStr "rich"; "image" := VRef 2;
                  "video" := VRef 3 ]};
     2 := ORec {[ "url" := VStr "i.png"; "width" := VNum 10;
                  "height" := VNum 5 ]};
     3 := ORec {[ "url" := VStr "v.mp4" ]} ]}.

End Heaps.

(** The bindings with the react package, whose module has no [React]
    property, the JSX being compiled for the automatic runtime. *)
Definition automatic_runtime : OverlayRender.imports :=
  {| OverlayRender.React := false; OverlayRender.classicJsx := false |}.

(** A message-actions module whose [default] export is a function. *)
Definition default_only : MetroLoad.actionsModule :=
  {| MetroLoad.isFunction := fun name => String.eqb name "default" |}.

(** A host in which the module and the patcher are found. *)
Definition ready : MetroLoad.env :=
  {| MetroLoad.findActions := Found default_only;
     MetroLoad.bunnyPatcher := true |}.

End RenderSamples.

(** * Properties *)

(** ** Heap lemmas *)

Section HeapFacts.
Context {F : Type}.
Implicit Types (h : gmap loc (obj F)) (v : value) (k : string).

Lemma alloc_spec h o l h' :
  alloc h o = (l, h') -> h !! l = None /\ h' = <[l := o]> h.
Proof.
  unfold alloc. intros [= <- <-]. split; [|done].
  apply not_elem_of_dom, is_fresh.
Qed.

Lemma alloc_subseteq h o l h' : alloc h o = (l, h') -> h ⊆ h'.
Proof.
  intros [Hl ->]%alloc_spec. by apply insert_subseteq.
Qed.

Lemma array_loc_Some h v l :
  array_loc h v = Some l <-> v = VRef l /\ exists xs, h !! l = Some (OArr xs).
Proof.
  unfold array_loc. split.
  - destruct v; try done. destruct (h !! l0) as [[xs| |]|] eqn:E; try done.
    intros [= <-]. eauto.
  - intros [-> [xs ->]]. done.
Qed.

Lemma as_array_Some h v xs :
  as_array h v = Some xs <-> exists l, v = VRef l /\ h !! l = Some (OArr xs).
Proof.
  unfold as_array. split.
  - destruct v; try done. destruct (h !! l) as [[ys| |]|] eqn:E; try done.
    intros [= <-]. eauto.
  - intros [l [-> ->]]. done.
Qed.

Lemma push_lookup h l xs x :
  h !! l = Some (OArr xs) -> push h l x !! l = Some (OArr (xs ++ [x])).
Proof. intros H. unfold push. rewrite H. apply lookup_insert_eq. Qed.

Lemma push_lookup_ne h l l' x : l <> l' -> push h l x !! l' = h !! l'.
Proof.
  intros Hne. unfold push.
  destruct (h !! l) as [[xs| |]|]; try done. by apply lookup_insert_ne.
Qed.

(** Cells that are not arrays are invisible to [array_loc]: allocating one
    changes no answer of [Array.isArray]. *)
Lemma array_loc_insert_fresh h l o v :
  h !! l = None -> (forall xs, o <> OArr xs) ->
  array_loc (<[l := o]> h) v = array_loc h v.
Proof.
  intros Hl Ho. unfold array_loc. destruct v as [| | | | |l']; try done.
  destruct (decide (l = l')) as [<-|Hne].
  - rewrite lookup_insert_eq, Hl. destruct o; try done. by destruct (Ho elems).
  - by rewrite lookup_insert_ne.
Qed.

(** Reading a property that a newly allocated cell does not have. *)
Lemma prop_insert_fresh h l o v k :
  h !! l = None ->
  (forall xs, o <> OArr xs) ->
  (forall m, o = ORec m -> m !! k = None) ->
  prop (<[l := o]> h) v k = prop h v k.
Proof.
  intros Hl Ho Hk. unfold prop. destruct v as [| | | | |l']; try done.
  destruct (decide (l = l')) as [<-|Hne].
  - rewrite lookup_insert_eq, Hl. destruct o as [xs|m|f]; try done.
    by rewrite (Hk m eq_refl).
  - by rewrite lookup_insert_ne.
Qed.

Lemma get_ok h v k : nullish v = false -> get h v k = Ok (prop h v k).
Proof. unfold get. by intros ->. Qed.

Lemma truthy_not_nullish v : truthy v = true -> nullish v = false.
Proof. by destruct v. Qed.

Lemma get_truthy h v k : truthy v = true -> get h v k = Ok (prop h v k).
Proof. intros H. by apply get_ok, truthy_not_nullish. Qed.

Lemma get_opt_ok h v k : get_opt h v k = Ok (prop h v k).
Proof. by destruct v. Qed.

End HeapFacts.

(** ** The extractor on the spec's example *)

(** C2, as stated, fails: on the message of the spec's example neither
    extractor returns the descriptor that the spec writes,
    [{url: "a.png", proxyUrl: "a.png", isVideo: false, width: 100,
    height: 50}]. The object of [src/src/index.ts] has no [width] and no
    [height]; the object of the first-match variant has them, and spells
    its proxy url [proxyURL], so that it has no [proxyUrl]. *)
Lemma extractMedia_png_not_the_spec_descriptor :
  let listed := {| Index.url := VStr "a.png";
                   Index.proxyUrl := VStr "a.png";
                   Index.isVideo := false |} in
  let first := {| Metro.url := VStr "a.png";
                  Metro.proxyURL := VStr "a.png";
                  Metro.width := VNum 100;
                  Metro.height := VNum 50;
                  Metro.isVideo := false |} in
  Index.extractMedia (F := unit) Samples.png_message (VRef 0) = Ok [listed]
  /\ Metro.extractMedia (F := unit) Samples.png_message (VRef 0)
     = Ok (Some first)
  /\ Spec.png_descriptor !! "width" = Some (VNum 100)
  /\ Index.literal listed !! "width" = None
  /\ Spec.png_descriptor !! "height" = Some (VNum 50)
  /\ Index.literal listed !! "height" = None
  /\ Spec.png_descriptor !! "proxyUrl" = Some (VStr "a.png")
  /\ Metro.literal first !! "proxyUrl" = None
  /\ Index.literal listed <> Spec.png_descriptor
  /\ Metro.literal first <> Spec.png_descriptor.
Proof.
  intros listed first.
  assert (Spec.png_descriptor !! "width" = Some (VNum 100)) as Hw
    by (vm_compute; reflexivity).
  assert (Spec.png_descriptor !! "proxyUrl" = Some (VStr "a.png")) as Hp
    by (vm_compute; reflexivity).
  split_and!; try (vm_compute; reflexivity).
  - intros E. rewrite <- E in Hw. by vm_compute in Hw.
  - intros E. rewrite <- E in Hp. by vm_compute in Hp.
Qed.

(** C2 (amended). On the message
    [{attachments: [{url: "a.png", content_type: "image/png; charset=x",
    width: 100, height: 50}]}] the extractor of [src/src/index.ts] returns
    the list of exactly one descriptor, the object
    [{url: "a.png", proxyUrl: "a.png", isVideo: false}], and the extractor
    of the first-match variant returns the one descriptor, the object
    [{url: "a.png", proxyURL: "a.png", width: 100, height: 50,
    isVideo: false}]. *)
Theorem extractMedia_png_example (F : Type) :
  let listed := {| Index.url := VStr "a.png";
                   Index.proxyUrl := VStr "a.png";
                   Index.isVideo := false |} in
  let first := {| Metro.url := VStr "a.png";
                  Metro.proxyURL := VStr "a.png";
                  Metro.width := VNum 100;
                  Metro.height := VNum 50;
                  Metro.isVideo := false |} in
  Index.extractMedia (F := F) Samples.png_message (VRef 0) = Ok [listed]
  /\ Index.literal listed
     = {[ "url" := VStr "a.png"; "proxyUrl" := VStr "a.png";
          "isVideo" := VBool false ]}
  /\ Metro.extractMedia (F := F) Samples.png_message (VRef 0)
     = Ok (Some first)
  /\ Metro.literal first
     = {[ "url" := VStr "a.png"; "proxyURL" := VStr "a.png";
          "width" := VNum 100; "height" := VNum 50;
          "isVideo" := VBool false ]}.
Proof.
  intros listed first. split_and!; try done; vm_compute; reflexivity.
Qed.

Lemma or_else_Ok (a b : value) : or_else (Ok a) (Ok b) = Ok (js_or a b).
Proof. unfold or_else, js_or. simpl. by destruct (truthy a). Qed.

(** ** Loops *)

Lemma first_some_app {A B} (f : A -> res (option B)) pre xs :
  Forall (fun a => f a = Ok None) pre ->
  first_some f (pre ++ xs) = first_some f xs.
Proof.
  induction 1 as [|a pre Ha _ IH]; [done|]. simpl. by rewrite Ha.
Qed.

Lemma first_some_hit {A B} (f : A -> res (option B)) pre x post b :
  Forall (fun a => f a = Ok None) pre ->
  f x = Ok (Some b) ->
  first_some f (pre ++ x :: post) = Ok (Some b).
Proof.
  intros Hpre Hx. rewrite first_some_app by done. simpl. by rewrite Hx.
Qed.

Lemma first_some_none {A B} (f : A -> res (option B)) xs :
  Forall (fun a => f a = Ok None) xs -> first_some f xs = Ok None.
Proof.
  intros H. rewrite <- (app_nil_r xs). by rewrite first_some_app.
Qed.

Lemma first_some_ok {A B} (f : A -> res (option B)) xs :
  Forall (fun a => exists r, f a = Ok r) xs ->
  exists r, first_some f xs = Ok r.
Proof.
  induction 1 as [|a xs [r Ha] _ [r' IH]]; simpl; [eauto|].
  rewrite Ha. simpl. destruct r; eauto.
Qed.

(** A result of the loop comes from some element, every element before
    which gave nothing. *)
Lemma first_some_inv {A B} (f : A -> res (option B)) xs b :
  first_some f xs = Ok (Some b) ->
  exists pre x post, xs = pre ++ x :: post /\
    Forall (fun a => f a = Ok None) pre /\ f x = Ok (Some b).
Proof.
  induction xs as [|a xs IH]; simpl; [done|].
  destruct (f a) as [[b'|]|e] eqn:Ha; simpl; try done.
  - intros [= ->]. exists [], a, xs. auto.
  - intros (pre & x & post & -> & Hpre & Hx)%IH.
    exists (a :: pre), x, post. auto.
Qed.

Lemma collect_ok {A B} (f : A -> res (list B)) xs :
  Forall (fun a => exists r, f a = Ok r) xs ->
  exists r, collect f xs = Ok r.
Proof.
  induction 1 as [|a xs [r Ha] _ [r' IH]]; simpl; [eauto|].
  rewrite Ha, IH. simpl. eauto.
Qed.

Lemma collect_nil {A B} (f : A -> res (list B)) xs :
  Forall (fun a => f a = Ok []) xs -> collect f xs = Ok [].
Proof.
  induction 1 as [|a xs Ha _ IH]; simpl; [done|]. by rewrite Ha, IH.
Qed.

Lemma collect_app {A B} (f : A -> res (list B)) xs ys :
  collect f (xs ++ ys) =
  let* a := collect f xs in let* b := collect f ys in Ok (a ++ b).
Proof.
  induction xs as [|x xs IH]; simpl.
  - by destruct (collect f ys).
  - destruct (f x) as [r|e]; simpl; [|done]. rewrite IH.
    destruct (collect f xs) as [a|e]; simpl; [|done].
    destruct (collect f ys) as [b|e]; simpl; [|done].
    by rewrite app_assoc.
Qed.

(** ** Content types *)

Lemma prefix_nil (s : string) : String.prefix "" s = true.
Proof. by destruct s. Qed.

Lemma prefix_cons (a c : ascii) (p s : string) :
  String.prefix (String a p) (String c s)
  = if ascii_dec a c then String.prefix p s else false.
Proof. reflexivity. Qed.

Lemma lower_ascii_semicolon : lower_ascii ";" = ";"%char.
Proof. reflexivity. Qed.

(** Cutting a string at its first semicolon changes no test of a prefix that
    has no semicolon. *)
Lemma prefix_before_semicolon (p s : string) :
  before_semicolon p = p ->
  String.prefix p (toLowerCase (before_semicolon s))
  = String.prefix p (toLowerCase s).
Proof.
  revert s. induction p as [|a p IH]; intros s Hp.
  - by rewrite !prefix_nil.
  - simpl in Hp. destruct (Ascii.eqb_spec a ";") as [->|Ha]; [done|].
    injection Hp as Hp. destruct s as [|c s]; [done|]. simpl.
    destruct (Ascii.eqb_spec c ";") as [->|Hc]; simpl.
    + rewrite lower_ascii_semicolon. by destruct (ascii_dec a ";").
    + destruct (ascii_dec a (lower_ascii c)); [by apply IH|done].
Qed.

(** A prefix found in a string is found in its lower-case form, when the
    prefix is in lower case. *)
Lemma prefix_toLowerCase (p s : string) :
  toLowerCase p = p ->
  String.prefix p s = true -> String.prefix p (toLowerCase s) = true.
Proof.
  revert s. induction p as [|a p IH]; intros s Hp.
  - by rewrite !prefix_nil.
  - injection Hp as Ha Hp. destruct s as [|c s]; [done|]. simpl.
    destruct (ascii_dec a c) as [<-|]; [|done]. rewrite Ha.
    destruct (ascii_dec a a); [|done]. by apply IH.
Qed.

(** Cutting at the semicolon keeps a prefix without semicolon. *)
Lemma prefix_cut (p s : string) :
  before_semicolon p = p ->
  String.prefix p (before_semicolon s) = String.prefix p s.
Proof.
  revert s. induction p as [|a p IH]; intros s Hp.
  - by rewrite !prefix_nil.
  - simpl in Hp. destruct (Ascii.eqb_spec a ";") as [->|Ha]; [done|].
    injection Hp as Hp. destruct s as [|c s]; [done|]. simpl.
    destruct (Ascii.eqb_spec c ";") as [->|Hc]; simpl.
    + by destruct (ascii_dec a ";").
    + destruct (ascii_dec a c); [by apply IH|done].
Qed.

(** The test of [src/src/index.ts] on the lower-cased content type is the
    spec's: case-insensitive, on the MIME type only. *)
Lemma Index_kind_is_mime_kind (s : string) :
  (if startsWith (toLowerCase s) "image/" then Some false
   else if startsWith (toLowerCase s) "video/" then Some true
   else None) = Spec.mime_kind s.
Proof.
  unfold Spec.mime_kind, startsWith.
  by rewrite !prefix_before_semicolon.
Qed.

(** What the case-sensitive test of the first-match variant accepts, the
    spec's accepts, with the same kind. *)
Lemma Metro_kind_mime_kind (s : string) :
  startsWith (before_semicolon s) "image/"
  || startsWith (before_semicolon s) "video/" = true ->
  Spec.mime_kind s = Some (startsWith (before_semicolon s) "video/").
Proof.
  unfold Spec.mime_kind, startsWith. intros H.
  destruct (String.prefix "image/" (before_semicolon s)) eqn:Hi.
  - rewrite (prefix_toLowerCase "image/" _ eq_refl Hi).
    destruct (String.prefix "video/" (before_semicolon s)) eqn:Hv; [|done].
    rewrite prefix_cut in Hi, Hv by done.
    destruct s as [|c s]; [done|]. rewrite prefix_cons in Hi, Hv.
    destruct (ascii_dec "i" c) as [<-|]; [|done].
    by destruct (ascii_dec "v" "i").
  - simpl in H. rewrite (prefix_toLowerCase "video/" _ eq_refl H), H.
    destruct (String.prefix "image/" (toLowerCase (before_semicolon s)))
      eqn:Hi'; [|done].
    exfalso. rewrite prefix_cut in H by done.
    rewrite prefix_before_semicolon in Hi' by done.
    destruct s as [|c s]; [done|].
    change (toLowerCase (String c s))
      with (String (lower_ascii c) (toLowerCase s)) in Hi'.
    rewrite prefix_cons in H, Hi'.
    destruct (ascii_dec "v" c) as [<-|]; [|done].
    by destruct (ascii_dec "i" (lower_ascii "v")).
Qed.

(** ** The loop bodies of the extractors, on records *)

Ltac eval_gets :=
  repeat (first
    [ rewrite get_ok by (done || by apply truthy_not_nullish)
    | rewrite or_else_Ok
    | progress simpl bind ]).

Section LoopBodies.
Context {F : Type}.
Implicit Types (h : gmap loc (obj F)).

Lemma Index_extractAttachment_record h att s :
  nullish att = false ->
  js_or (js_or (prop h att "content_type") (prop h att "contentType"))
        (VStr "") = VStr s ->
  Index.extractAttachment h att
  = Ok (match Spec.mime_kind s with
        | Some video => [Index.mediaOf h att video]
        | None => []
        end).
Proof.
  intros Hatt Hs. unfold Index.extractAttachment. eval_gets.
  rewrite Hs. simpl. rewrite <- Index_kind_is_mime_kind.
  destruct (startsWith (toLowerCase s) "image/"); eval_gets; [done|].
  destruct (startsWith (toLowerCase s) "video/"); eval_gets; done.
Qed.

Lemma Index_extractEmbed_record h embed :
  nullish embed = false ->
  let ty := prop h embed "type" in
  let video := prop h embed "video" in
  let image := prop h embed "image" in
  Index.extractEmbed h embed
  = Ok ((if is_str ty "gifv" && truthy video
         then [Index.gifvOf h embed video] else [])
        ++ (if truthy image then [Index.mediaOf h image false] else [])
        ++ (if truthy video && negb (is_str ty "gifv")
            then [Index.mediaOf h video true] else [])).
Proof.
  intros Hembed. simpl. unfold Index.extractEmbed. eval_gets.
  destruct (truthy (prop h embed "video")) eqn:Hv;
    destruct (truthy (prop h embed "image")) eqn:Hi;
    destruct (is_str (prop h embed "type") "gifv");
    simpl; eval_gets; done.
Qed.

Lemma Metro_extractAttachment_record h att s :
  nullish att = false ->
  js_or (prop h att "content_type") (VStr "") = VStr s ->
  let ct := before_semicolon s in
  Metro.extractAttachment h att
  = Ok (if startsWith ct "image/" || startsWith ct "video/"
        then Some (Metro.mediaOf h att (startsWith ct "video/"))
        else None).
Proof.
  intros Hatt Hs. simpl. unfold Metro.extractAttachment. eval_gets.
  rewrite Hs. simpl.
  destruct (startsWith (before_semicolon s) "image/"
            || startsWith (before_semicolon s) "video/"); eval_gets; done.
Qed.

Lemma Metro_extractEmbed_record h embed :
  nullish embed = false ->
  let ty := prop h embed "type" in
  let video := prop h embed "video" in
  let image := prop h embed "image" in
  Metro.extractEmbed h embed
  = Ok (if is_str ty "gifv" && truthy video
        then Some (Metro.gifvOf h embed video)
        else if truthy video then Some (Metro.mediaOf h video true)
        else if truthy image then Some (Metro.mediaOf h image false)
        else None).
Proof.
  intros Hembed. simpl. unfold Metro.extractEmbed. eval_gets.
  destruct (truthy (prop h embed "video")) eqn:Hv;
    destruct (truthy (prop h embed "image")) eqn:Hi;
    destruct (is_str (prop h embed "type") "gifv");
    simpl; eval_gets; done.
Qed.

End LoopBodies.

Lemma forallb_Forall {A} (f : A -> bool) (xs : list A) :
  forallb f xs = true -> Forall (fun x => f x = true) xs.
Proof.
  induction xs as [|x xs IH]; simpl; [by constructor|].
  intros [Hx Hxs]%andb_prop. constructor; auto.
Qed.

Lemma string_or_falsy_or (v : value) :
  Spec.string_or_falsy v = true -> exists s, js_or v (VStr "") = VStr s.
Proof.
  unfold js_or. destruct v as [| |b|n|s|l]; simpl; try (by eauto).
  - destruct b; [done|eauto].
  - destruct (n =? 0)%Z; [eauto|done].
  - destruct (String.eqb s ""); simpl; eauto.
Qed.

Lemma string_or_falsy_or2 (v w : value) :
  Spec.string_or_falsy v = true -> Spec.string_or_falsy w = true ->
  exists s, js_or (js_or v w) (VStr "") = VStr s.
Proof.
  intros Hv Hw. unfold js_or at 2. destruct (truthy v) eqn:E.
  - by apply string_or_falsy_or.
  - by apply string_or_falsy_or.
Qed.

(** ** C4: content types in upper case *)

(** C4 (code defect in the first-match variant). The content type
    ["IMAGE/PNG; charset=x"] has the same kind as ["image/png"] for the spec
    and for [src/src/index.ts], which lower-cases it; the first-match
    variant strips the parameters but compares case-sensitively, and finds
    no media in the upper-case message while it finds the image in the
    lower-case one. *)
Theorem Metro_upper_case_content_type (F : Type) :
  Metro.extractMedia (F := F) Samples.upper_message (VRef 0) = Ok None
  /\ Metro.extractMedia (F := F) Samples.plain_message (VRef 0)
     = Ok (Some {| Metro.url := VStr "a.png";
                   Metro.proxyURL := VStr "a.png";
                   Metro.width := VNum 100;
                   Metro.height := VNum 50;
                   Metro.isVideo := false |})
  /\ Index.extractMedia (F := F) Samples.upper_message (VRef 0)
     = Index.extractMedia (F := F) Samples.plain_message (VRef 0)
  /\ Index.extractMedia (F := F) Samples.upper_message (VRef 0)
     = Ok [ {| Index.url := VStr "a.png";
               Index.proxyUrl := VStr "a.png";
               Index.isVideo := false |} ]
  /\ Spec.mime_kind "IMAGE/PNG; charset=x" = Spec.mime_kind "image/png".
Proof. repeat split; vm_compute; reflexivity. Qed.

(** In [src/src/index.ts] the kind of every attachment is the spec's kind of
    its content type: case-insensitive, parameters ignored. *)
Lemma Index_attachment_kind (F : Type) (h : gmap loc (obj F)) att s :
  nullish att = false ->
  js_or (js_or (prop h att "content_type") (prop h att "contentType"))
        (VStr "") = VStr s ->
  Index.extractAttachment h att
  = Ok (match Spec.mime_kind s with
        | Some video => [Index.mediaOf h att video]
        | None => []
        end).
Proof. apply Index_extractAttachment_record. Qed.

(** ** C9: partial messages *)

Section Totality.
Context {F : Type}.
Implicit Types (h : gmap loc (obj F)).

Lemma Index_extractAttachment_like h att :
  Spec.attachment_like h att = true ->
  exists r, Index.extractAttachment h att = Ok r.
Proof.
  unfold Spec.attachment_like.
  intros [[Hn%negb_true_iff H1]%andb_prop H2]%andb_prop.
  destruct (string_or_falsy_or2 _ _ H1 H2) as [s Hs].
  rewrite (Index_extractAttachment_record h att s) by done. eauto.
Qed.

Lemma Index_extractEmbed_like h embed :
  Spec.embed_like embed = true -> exists r, Index.extractEmbed h embed = Ok r.
Proof.
  intros Hn%negb_true_iff. rewrite Index_extractEmbed_record by done. eauto.
Qed.

Lemma Index_extractMedia_like h message :
  Spec.message_like h message = true ->
  exists media, Index.extractMedia h message = Ok media.
Proof.
  unfold Spec.message_like, Spec.elements.
  intros [Ha%forallb_Forall He%forallb_Forall]%andb_prop.
  unfold Index.extractMedia. rewrite !get_opt_ok. simpl.
  assert (exists m1,
    match as_array h (prop h message "attachments") with
    | Some xs => collect (Index.extractAttachment h) xs
    | None => Ok []
    end = Ok m1) as [m1 ->].
  { destruct (as_array h (prop h message "attachments")); [|eauto].
    apply collect_ok. eapply Forall_impl; [exact Ha|].
    apply Index_extractAttachment_like. }
  simpl.
  assert (exists m2,
    match as_array h (prop h message "embeds") with
    | Some xs => collect (Index.extractEmbed h) xs
    | None => Ok []
    end = Ok m2) as [m2 ->].
  { destruct (as_array h (prop h message "embeds")); [|eauto].
    apply collect_ok. eapply Forall_impl; [exact He|].
    apply Index_extractEmbed_like. }
  simpl. eauto.
Qed.

(** A loop over elements that all answer: the answer of the loop is the
    answer of one of the elements. *)
Lemma first_some_ok_from {A B} (f : A -> res (option B))
  (P : A -> B -> Prop) xs :
  Forall (fun a => exists r, f a = Ok r /\ forall b, r = Some b -> P a b) xs ->
  exists r, first_some f xs = Ok r
    /\ forall b, r = Some b -> exists a, a ∈ xs /\ P a b.
Proof.
  induction 1 as [|a xs (r & Ha & HP) _ (r' & IH & HP')]; simpl.
  - exists None. by split.
  - rewrite Ha. simpl. destruct r as [b|].
    + eexists. split; [done|]. intros b' [= <-]. exists a.
      split; [by left|auto].
    + exists r'. split; [done|]. intros b Hb.
      destruct (HP' b Hb) as (a' & Hin & Hb'). exists a'.
      split; [by right|done].
Qed.




Lemma Metro_extractAttachment_from h att :
  Spec.attachment_like h att = true ->
  exists r, Metro.extractAttachment h att = Ok r
    /\ forall d, r = Some d -> d = Metro.mediaOf h att (Metro.isVideo d).
Proof.
  unfold Spec.attachment_like.
  intros [[Hn%negb_true_iff H1]%andb_prop H2]%andb_prop.
  destruct (string_or_falsy_or _ H1) as [s Hs].
  rewrite (Metro_extractAttachment_record h att s) by done.
  eexists. split; [done|]. intros d.
  destruct (_ || _); [|done]. by intros [= <-].
Qed.

Lemma Metro_extractEmbed_from h embed :
  Spec.embed_like embed = true ->
  exists r, Metro.extractEmbed h embed = Ok r
    /\ forall d, r = Some d ->
         d = Metro.gifvOf h embed (prop h embed "video")
         \/ d = Metro.mediaOf h (prop h embed "video") true
         \/ d = Metro.mediaOf h (prop h embed "image") false.
Proof.
  intros Hn%negb_true_iff. rewrite Metro_extractEmbed_record by done.
  eexists. split; [done|]. intros d.
  repeat case_match; try done; intros [= <-]; auto.
Qed.


Lemma Metro_extractMedia_like h message :
  Spec.message_like h message = true ->
  exists r, Metro.extractMedia h message = Ok r /\
    forall d, r = Some d ->
      (exists att,
         att ∈ Spec.elements h (prop h message "attachments")
         /\ d = Metro.mediaOf h att (Metro.isVideo d))
      \/ (exists embed,
            embed ∈ Spec.elements h (prop h message "embeds")
            /\ (d = Metro.gifvOf h embed (prop h embed "video")
                \/ d = Metro.mediaOf h (prop h embed "video") true
                \/ d = Metro.mediaOf h (prop h embed "image") false)).
Proof.
  unfold Spec.message_like, Spec.elements.
  intros [Ha%forallb_Forall He%forallb_Forall]%andb_prop.
  unfold Metro.extractMedia. destruct (truthy message) eqn:Hm; simpl negb;
    cbv iota.
  2:{ exists None. by split. }
  rewrite !get_truthy by done. cbn [bind].
  assert (exists r,
    match as_array h (prop h message "attachments") with
    | Some xs => first_some (Metro.extractAttachment h) xs
    | None => Ok None
    end = Ok r /\ forall d, r = Some d ->
      exists att,
        att ∈ default [] (as_array h (prop h message "attachments"))
        /\ d = Metro.mediaOf h att (Metro.isVideo d))
    as (r & -> & Hr).
  { destruct (as_array h (prop h message "attachments")) as [xs|]; simpl in *.
    - apply (first_some_ok_from (Metro.extractAttachment h)
               (fun att d => d = Metro.mediaOf h att (Metro.isVideo d))).
      eapply Forall_impl; [exact Ha|]. apply Metro_extractAttachment_from.
    - exists None. by split. }
  cbn [bind]. destruct r as [d|].
  { eexists. split; [done|]. intros d' [= <-]. left. by apply Hr. }
  destruct (as_array h (prop h message "embeds")) as [ys|]; simpl in *.
  - destruct (first_some_ok_from (Metro.extractEmbed h)
                (fun embed d =>
                   d = Metro.gifvOf h embed (prop h embed "video")
                   \/ d = Metro.mediaOf h (prop h embed "video") true
                   \/ d = Metro.mediaOf h (prop h embed "image") false) ys)
      as (r & -> & Hr').
    { eapply Forall_impl; [exact He|]. apply Metro_extractEmbed_from. }
    eexists. split; [done|]. intros d Hd. right. by apply Hr'.
  - exists None. by split.
Qed.

End Totality.




(** ** The action-sheet hooks *)

Section PushFacts.
Context {F : Type}.
Implicit Types (h : gmap loc (obj F)).

(** [push] turns an array cell into an array cell: no property read and no
    closure is affected. *)
Lemma prop_push h l x v k : prop (push h l x) v k = prop h v k.
Proof.
  unfold prop, push. destruct v as [| | | | |l']; try done.
  destruct (h !! l) as [[xs| |]|] eqn:E; try done.
  destruct (decide (l = l')) as [<-|Hne].
  - by rewrite lookup_insert_eq, E.
  - by rewrite lookup_insert_ne.
Qed.

Lemma onPressOf_push h l x item :
  onPressOf (push h l x) item = onPressOf h item.
Proof.
  unfold onPressOf. rewrite prop_push.
  destruct (prop h item "onPress") as [| | | | |lf]; try done.
  unfold push. destruct (h !! l) as [[xs| |]|] eqn:E; try done.
  destruct (decide (l = lf)) as [<-|Hne].
  - by rewrite lookup_insert_eq, E.
  - by rewrite lookup_insert_ne.
Qed.

Lemma appended_push h h2 l x :
  untouched h h2 -> array_loc h (VRef l) = Some l ->
  appended h (push h2 l x) l x.
Proof.
  intros Hu [_ [xs Hl]]%array_loc_Some. split.
  - exists xs. split; [done|]. apply push_lookup. by apply Hu.
  - intros l' o Hne Hl'. rewrite push_lookup_ne by done. by apply Hu.
Qed.

Lemma untouched_refl h : untouched h h.
Proof. by intros l o. Qed.

End PushFacts.

(** The action item of [src/src/index.ts]: two new cells, the record and
    its closure. *)
Lemma Index_favouriteAction_spec (h : gmap loc (obj Index.closure)) media fav h2 :
  Index.favouriteAction h media = (fav, h2) ->
  untouched h h2
  /\ new_in h fav
  /\ onPressOf h2 fav = Some (Index.FavouriteMedia media)
  /\ prop h2 fav "label" = VStr "⭐ Favourite"
  /\ (forall v, array_loc h2 v = array_loc h v)
  /\ (forall v k, k <> "label" -> k <> "onPress" ->
        prop h2 v k = prop h v k).
Proof.
  unfold Index.favouriteAction.
  destruct (alloc h _) as [lf h1] eqn:E1.
  destruct (alloc h1 _) as [la h2'] eqn:E2.
  intros [= <- <-].
  apply alloc_spec in E1 as [Hlf ->]. apply alloc_spec in E2 as [Hla ->].
  assert (la <> lf) as Hne.
  { intros ->. by rewrite lookup_insert_eq in Hla. }
  assert (h !! la = None) as Hla'.
  { by rewrite lookup_insert_ne in Hla. }
  repeat split.
  - intros l o Hl. rewrite !lookup_insert_ne; [done| |]; congruence.
  - exists la. by split.
  - unfold onPressOf, prop. rewrite lookup_insert_eq.
    rewrite (lookup_insert_ne _ "label" "onPress") by done.
    rewrite lookup_singleton_eq. simpl.
    rewrite lookup_insert_ne, lookup_insert_eq by done. done.
  - unfold prop. by rewrite !lookup_insert_eq.
  - intros v. rewrite !array_loc_insert_fresh; done.
  - intros v k Hk1 Hk2. rewrite !prop_insert_fresh; try done.
    intros m [= <-]. rewrite lookup_insert_ne by done.
    by rewrite lookup_singleton_ne.
Qed.

(** The action item of the first-match variant. *)
Lemma Metro_buildFavouriteAction_spec (h : gmap loc (obj Metro.closure)) d fav h2 :
  Metro.buildFavouriteAction h d = (fav, h2) ->
  untouched h h2
  /\ new_in h fav
  /\ onPressOf h2 fav = Some (Metro.OnPress d)
  /\ prop h2 fav "label" = VStr "⭐ Favourite".
Proof.
  unfold Metro.buildFavouriteAction.
  destruct (alloc h _) as [lf h1] eqn:E1.
  destruct (alloc h1 _) as [la h2'] eqn:E2.
  intros [= <- <-].
  apply alloc_spec in E1 as [Hlf ->]. apply alloc_spec in E2 as [Hla ->].
  assert (la <> lf) as Hne.
  { intros ->. by rewrite lookup_insert_eq in Hla. }
  assert (h !! la = None) as Hla'.
  { by rewrite lookup_insert_ne in Hla. }
  repeat split.
  - intros l o Hl. rewrite !lookup_insert_ne; [done| |]; congruence.
  - exists la. by split.
  - unfold onPressOf, prop. rewrite lookup_insert_eq.
    rewrite (lookup_insert_ne _ "key" "onPress") by done.
    rewrite (lookup_insert_ne _ "label" "onPress") by done.
    rewrite lookup_singleton_eq. simpl.
    rewrite lookup_insert_ne, lookup_insert_eq by done. done.
  - unfold prop. rewrite lookup_insert_eq.
    rewrite (lookup_insert_ne _ "key" "label") by done.
    by rewrite lookup_insert_eq.
Qed.

(** The whole effect of the hook of [src/src/index.ts]. *)
Lemma Index_afterHook_effect (h : gmap loc (obj Index.closure)) args result media :
  Index.extractMedia h (nth 0 args VUndefined) = Ok media ->
  exists h', Index.afterHook h args result = Ok (h', result) /\
    match media with
    | [] => h' = h
    | _ :: _ =>
        match Index.target h result with
        | Some l =>
            exists fav, appended h h' l fav
              /\ favourite_item h h' fav (Index.FavouriteMedia media)
        | None => untouched h h'
        end
    end.
Proof.
  intros Hm. unfold Index.afterHook. rewrite Hm. cbn [bind].
  destruct media as [|d rest]; [eauto|].
  destruct (Index.favouriteAction h (d :: rest)) as [fav h1] eqn:Efav.
  apply Index_favouriteAction_spec in Efav
    as (Hu & Hnew & Hpress & Hlabel & Harr & Hprop).
  assert (forall l, array_loc h (VRef l) = Some l ->
    appended h (push h1 l fav) l fav
    /\ favourite_item h (push h1 l fav) fav (Index.FavouriteMedia (d :: rest)))
    as Hpush.
  { intros l Hl. split; [by apply appended_push|].
    repeat split; [done| |]; by rewrite ?onPressOf_push, ?prop_push. }
  assert (forall v l, array_loc h v = Some l -> array_loc h (VRef l) = Some l)
    as Hself.
  { intros v l Hv. apply array_loc_Some in Hv as [-> ?]. by apply array_loc_Some. }
  assert (forall v l, array_loc h v = Some l ->
    exists h', Ok (push h1 l fav, result) = Ok (h', result) /\
      exists fav', appended h h' l fav'
        /\ favourite_item h h' fav' (Index.FavouriteMedia (d :: rest)))
    as Hfound.
  { intros v l Hv. eexists. split; [done|]. exists fav.
    apply Hpush. by eapply Hself. }
  unfold Index.target. rewrite Harr.
  destruct (array_loc h result) as [l|] eqn:E0; [by eapply Hfound|].
  assert (forall k, k <> "label" -> k <> "onPress" ->
    (if truthy result then get h1 result k else Ok VUndefined)
    = Ok (prop h result k)) as Hget.
  { intros k Hk1 Hk2. destruct (truthy result) eqn:Ht.
    - rewrite get_truthy by done. by rewrite Hprop.
    - by destruct result as [| |[]|[]|[]|]. }
  rewrite (Hget "items") by done. cbn [bind]. rewrite Harr.
  destruct (array_loc h (prop h result "items")) as [l|] eqn:E1;
    [by eapply Hfound|].
  rewrite (Hget "actions") by done. cbn [bind]. rewrite Harr.
  destruct (array_loc h (prop h result "actions")) as [l|] eqn:E2;
    [by eapply Hfound|]. eauto.
Qed.

Lemma array_loc_self {F} (h : gmap loc (obj F)) v l :
  array_loc h v = Some l -> array_loc h (VRef l) = Some l.
Proof.
  intros [-> [xs Hl]]%array_loc_Some. unfold array_loc. by rewrite Hl.
Qed.

Lemma and_get_ok (h : gmap loc (obj Metro.closure)) a k :
  Metro.and_get h a k = Ok (if truthy a then prop h a k else a).
Proof.
  unfold Metro.and_get. destruct (truthy a) eqn:E; [|done].
  by rewrite get_truthy.
Qed.

(** A falsy value has no truthy property. *)
Lemma and_get_truthy {F} (h : gmap loc (obj F)) a k :
  truthy (if truthy a then prop h a k else a) = truthy (prop h a k).
Proof. destruct (truthy a) eqn:E; [done|]. by destruct a as [| |[]|[]|[]|]. Qed.

Lemma Metro_messageOf_ok (h : gmap loc (obj Metro.closure)) args :
  exists m, Metro.messageOf h args = Ok m.
Proof.
  unfold Metro.messageOf. rewrite and_get_ok, !or_else_Ok. eauto.
Qed.

Lemma Metro_childOptions_ok (h : gmap loc (obj Metro.closure)) child :
  Metro.childOptions h child = Ok (Metro.child_options h child).
Proof.
  unfold Metro.childOptions, Metro.child_options. rewrite and_get_ok.
  cbn [bind]. rewrite and_get_truthy.
  destruct (truthy child) eqn:Hc; simpl.
  - destruct (truthy (prop h child "props")) eqn:Hp; [|done].
    by rewrite get_truthy.
  - destruct (truthy (prop h child "props")) eqn:Hp; [|done].
    by destruct child as [| |[]|[]|[]|].
Qed.

Lemma Metro_children_ok (h : gmap loc (obj Metro.closure)) cs :
  first_some (Metro.childOptions h) cs
  = Ok (Metro.first_loc (Metro.child_options h) cs).
Proof.
  induction cs as [|c cs IH]; [done|]. simpl.
  rewrite Metro_childOptions_ok. cbn [bind].
  by destruct (Metro.child_options h c).
Qed.

Lemma Metro_child_options_array (h : gmap loc (obj Metro.closure)) cs l :
  Metro.first_loc (Metro.child_options h) cs = Some l ->
  array_loc h (VRef l) = Some l.
Proof.
  induction cs as [|c cs IH]; [done|]. simpl.
  destruct (Metro.child_options h c) as [l'|] eqn:E; [|done].
  intros [= ->]. unfold Metro.child_options in E.
  destruct (_ && _); [|done]. by eapply array_loc_self.
Qed.

Lemma Metro_pushFavourite_effect (h : gmap loc (obj Metro.closure)) l d :
  array_loc h (VRef l) = Some l ->
  exists fav, appended h (Metro.pushFavourite h l d) l fav
    /\ favourite_item h (Metro.pushFavourite h l d) fav (Metro.OnPress d).
Proof.
  intros Hl. unfold Metro.pushFavourite.
  destruct (Metro.buildFavouriteAction h d) as [fav h1] eqn:E.
  apply Metro_buildFavouriteAction_spec in E as (Hu & Hnew & Hpress & Hlabel).
  exists fav. split; [by apply appended_push|].
  repeat split; [done| |]; by rewrite ?onPressOf_push, ?prop_push.
Qed.

(** The whole effect of the hook of the first-match variant. *)
Lemma Metro_afterActions_effect (h : gmap loc (obj Metro.closure)) args ret m r :
  Metro.messageOf h args = Ok m ->
  Metro.extractMedia h m = Ok r ->
  exists h', Metro.afterActions h args ret = Ok (h', ret) /\
    match r with
    | None => h' = h
    | Some d =>
        match Metro.target h ret with
        | Some l =>
            exists fav, appended h h' l fav
              /\ favourite_item h h' fav (Metro.OnPress d)
        | None => h' = h
        end
    end.
Proof.
  intros Hm Hr. unfold Metro.afterActions. rewrite Hm. cbn [bind].
  rewrite Hr. cbn [bind]. destruct r as [d|]; [|eauto].
  assert (forall v l, array_loc h v = Some l ->
    exists h', Ok (Metro.pushFavourite h l d, ret) = Ok (h', ret) /\
      exists fav, appended h h' l fav
        /\ favourite_item h h' fav (Metro.OnPress d)) as Hfound.
  { intros v l Hv. eexists. split; [done|].
    apply Metro_pushFavourite_effect. by eapply array_loc_self. }
  unfold Metro.target.
  destruct (array_loc h ret) as [l|] eqn:E0; [by eapply Hfound|].
  rewrite and_get_ok. cbn [bind]. rewrite and_get_truthy.
  destruct (truthy (prop h ret "props")) eqn:Hp; [|eauto].
  assert (truthy ret = true) as Hret.
  { destruct (truthy ret) eqn:Ht; [done|].
    by destruct ret as [| |[]|[]|[]|]. }
  rewrite Hret, get_truthy by done. cbn [bind].
  destruct (array_loc h (prop h (prop h ret "props") "options"))
    as [l|] eqn:E1; [by eapply Hfound|].
  rewrite get_truthy by done. cbn [bind].
  destruct (as_array h (prop h (prop h ret "props") "children"))
    as [cs|] eqn:E2; [|eauto].
  rewrite Metro_children_ok. cbn [bind].
  destruct (Metro.first_loc (Metro.child_options h) cs) as [l|] eqn:E3;
    [|eauto].
  eapply (Hfound (VRef l)). by eapply Metro_child_options_array.
Qed.

(** ** C8: messages without media *)

Lemma no_kind_or (v : value) :
  Spec.no_kind v = true ->
  exists s, js_or v (VStr "") = VStr s /\ Spec.mime_kind s = None.
Proof.
  unfold js_or. destruct v as [| |b|n|s|l]; simpl; try (by eauto).
  - destruct b; [done|eauto].
  - destruct (n =? 0)%Z; [eauto|done].
  - destruct (Spec.mime_kind s) eqn:E; [done|]. intros _.
    destruct (String.eqb_spec s "") as [->|]; simpl; eauto.
Qed.

Lemma no_kind_or2 (v w : value) :
  Spec.no_kind v = true -> Spec.no_kind w = true ->
  exists s, js_or (js_or v w) (VStr "") = VStr s /\ Spec.mime_kind s = None.
Proof.
  intros Hv Hw. unfold js_or at 2.
  destruct (truthy v); by apply no_kind_or.
Qed.

Section NoMedia.
Context {F : Type}.
Implicit Types (h : gmap loc (obj F)).

Lemma Index_attachment_without_media h att :
  Spec.attachment_without_media h att = true ->
  Index.extractAttachment h att = Ok [].
Proof.
  unfold Spec.attachment_without_media.
  intros [[Hn%negb_true_iff H1]%andb_prop H2]%andb_prop.
  destruct (no_kind_or2 _ _ H1 H2) as (s & Hs & Hk).
  rewrite (Index_extractAttachment_record h att s) by done. by rewrite Hk.
Qed.

Lemma Metro_attachment_without_media h att :
  Spec.attachment_without_media h att = true ->
  Metro.extractAttachment h att = Ok None.
Proof.
  unfold Spec.attachment_without_media.
  intros [[Hn%negb_true_iff H1]%andb_prop H2]%andb_prop.
  destruct (no_kind_or _ H1) as (s & Hs & Hk).
  rewrite (Metro_extractAttachment_record h att s) by done.
  destruct (_ || _) eqn:E; [|done].
  apply Metro_kind_mime_kind in E. congruence.
Qed.

Lemma Index_embed_without_media h embed :
  Spec.embed_without_media h embed = true ->
  Index.extractEmbed h embed = Ok [].
Proof.
  unfold Spec.embed_without_media.
  intros [[Hn%negb_true_iff Hv%negb_true_iff]%andb_prop
          Hi%negb_true_iff]%andb_prop.
  rewrite Index_extractEmbed_record by done. rewrite Hv, Hi.
  by rewrite andb_false_r.
Qed.

Lemma Metro_embed_without_media h embed :
  Spec.embed_without_media h embed = true ->
  Metro.extractEmbed h embed = Ok None.
Proof.
  unfold Spec.embed_without_media.
  intros [[Hn%negb_true_iff Hv%negb_true_iff]%andb_prop
          Hi%negb_true_iff]%andb_prop.
  rewrite Metro_extractEmbed_record by done. rewrite Hv, Hi.
  by rewrite andb_false_r.
Qed.

Lemma Index_no_media h message :
  Spec.no_media h message = true -> Index.extractMedia h message = Ok [].
Proof.
  unfold Spec.no_media, Spec.elements.
  intros [Ha%forallb_Forall He%forallb_Forall]%andb_prop.
  unfold Index.extractMedia. rewrite !get_opt_ok. cbn [bind].
  destruct (as_array h (prop h message "attachments")) as [xs|];
    destruct (as_array h (prop h message "embeds")) as [ys|];
    simpl in Ha, He;
    rewrite ?(collect_nil (Index.extractAttachment h) xs),
            ?(collect_nil (Index.extractEmbed h) ys);
    try done;
    try (eapply Forall_impl; [eassumption|];
         first [apply Index_attachment_without_media
               |apply Index_embed_without_media]).
Qed.

Lemma Metro_no_media h message :
  Spec.no_media h message = true -> Metro.extractMedia h message = Ok None.
Proof.
  unfold Spec.no_media, Spec.elements.
  intros [Ha%forallb_Forall He%forallb_Forall]%andb_prop.
  unfold Metro.extractMedia. destruct (truthy message) eqn:Hm; [|done].
  simpl negb. cbv iota. rewrite !get_truthy by done. cbn [bind].
  destruct (as_array h (prop h message "attachments")) as [xs|];
    destruct (as_array h (prop h message "embeds")) as [ys|];
    simpl in Ha, He;
    rewrite ?(first_some_none (Metro.extractAttachment h) xs);
    cbn [bind];
    rewrite ?(first_some_none (Metro.extractEmbed h) ys);
    try done;
    try (eapply Forall_impl; [eassumption|];
         first [apply Metro_attachment_without_media
               |apply Metro_embed_without_media]).
Qed.

End NoMedia.

(** C8. For every message with no image or video attachment and no embed
    with an image or video field, both action-sheet hooks hand back the
    original return value and leave the heap as it was: nothing is
    appended, no cell is modified. *)
Theorem hook_without_media_unchanged :
  (forall (h : gmap loc (obj Index.closure)) args result,
     Spec.no_media h (nth 0 args VUndefined) = true ->
     Index.afterHook h args result = Ok (h, result))
  /\ (forall (h : gmap loc (obj Metro.closure)) args ret message,
        Metro.messageOf h args = Ok message ->
        Spec.no_media h message = true ->
        Metro.afterActions h args ret = Ok (h, ret)).
Proof.
  split.
  - intros h args result Hno. apply Index_no_media in Hno.
    destruct (Index_afterHook_effect h args result [] Hno) as (h' & -> & ->).
    done.
  - intros h args ret m Hm Hno. apply Metro_no_media in Hno.
    destruct (Metro_afterActions_effect h args ret m None Hm Hno)
      as (h' & -> & ->).
    done.
Qed.

(** ** Precedence: which media item comes first *)

Section Precedence.
Context {F : Type}.
Implicit Types (h : gmap loc (obj F)).

Lemma as_array_truthy h message k xs :
  as_array h (prop h message k) = Some xs -> truthy message = true.
Proof.
  destruct message; try done; simpl; unfold as_array, prop; done.
Qed.

Lemma string_prop_not_nullish h v k s :
  prop h v k = VStr s -> nullish v = false.
Proof. by destruct v. Qed.

Lemma js_or_string s : js_or (VStr s) (VStr "") = VStr s.
Proof.
  unfold js_or. simpl. by destruct (String.eqb_spec s "") as [->|].
Qed.

(** First-match variant: the first attachment of kind image or video gives
    the descriptor. *)
Lemma Metro_first_attachment h message pre att post s :
  as_array h (prop h message "attachments") = Some (pre ++ att :: post) ->
  forallb (Spec.attachment_without_media h) pre = true ->
  prop h att "content_type" = VStr s ->
  let ct := before_semicolon s in
  startsWith ct "image/" || startsWith ct "video/" = true ->
  Metro.extractMedia h message
  = Ok (Some (Metro.mediaOf h att (startsWith ct "video/"))).
Proof.
  intros Harr Hpre%forallb_Forall Hs ct Hk.
  unfold Metro.extractMedia.
  rewrite (as_array_truthy _ _ _ _ Harr). simpl negb. cbv iota.
  rewrite get_truthy by (by eapply as_array_truthy). cbn [bind].
  rewrite Harr.
  rewrite (first_some_hit _ pre att post
             (Metro.mediaOf h att (startsWith ct "video/"))); [done| |].
  - eapply Forall_impl; [exact Hpre|]. apply Metro_attachment_without_media.
  - rewrite (Metro_extractAttachment_record h att s).
    + fold ct. by rewrite Hk.
    + by eapply string_prop_not_nullish.
    + rewrite Hs. apply js_or_string.
Qed.

(** First-match variant: without such an attachment, the first embed with a
    video or image field gives the descriptor: gifv with video, else video,
    else image. *)
Lemma Metro_first_embed h message pre embed post :
  forallb (Spec.attachment_without_media h)
          (Spec.elements h (prop h message "attachments")) = true ->
  as_array h (prop h message "embeds") = Some (pre ++ embed :: post) ->
  forallb (Spec.embed_without_media h) pre = true ->
  nullish embed = false ->
  let ty := prop h embed "type" in
  let video := prop h embed "video" in
  let image := prop h embed "image" in
  truthy video || truthy image = true ->
  Metro.extractMedia h message
  = Ok (Some (if is_str ty "gifv" && truthy video
              then Metro.gifvOf h embed video
              else if truthy video then Metro.mediaOf h video true
              else Metro.mediaOf h image false)).
Proof.
  intros Hatt%forallb_Forall Harr Hpre%forallb_Forall Hn ty video image Hk.
  unfold Metro.extractMedia.
  rewrite (as_array_truthy _ _ _ _ Harr). simpl negb. cbv iota.
  rewrite !get_truthy by (by eapply as_array_truthy). cbn [bind].
  assert (match as_array h (prop h message "attachments") with
          | Some xs => first_some (Metro.extractAttachment h) xs
          | None => Ok None
          end = Ok None) as ->.
  { unfold Spec.elements in Hatt.
    destruct (as_array h (prop h message "attachments")); [|done].
    apply first_some_none. eapply Forall_impl; [exact Hatt|].
    apply Metro_attachment_without_media. }
  cbn [bind]. rewrite Harr.
  apply first_some_hit.
  - eapply Forall_impl; [exact Hpre|]. apply Metro_embed_without_media.
  - rewrite Metro_extractEmbed_record by done. fold ty video image.
    destruct (is_str ty "gifv" && truthy video); [done|].
    destruct (truthy video); [done|]. simpl in Hk. by rewrite Hk.
Qed.

Lemma forallb_app_inv {A} (f : A -> bool) xs ys :
  forallb f (xs ++ ys) = true -> forallb f xs = true /\ forallb f ys = true.
Proof. rewrite forallb_app. apply andb_prop. Qed.

(** List-returning variant: the first attachment of kind image or video
    gives the first descriptor. *)
Lemma Index_first_attachment h message pre att post s video :
  Spec.message_like h message = true ->
  as_array h (prop h message "attachments") = Some (pre ++ att :: post) ->
  forallb (Spec.attachment_without_media h) pre = true ->
  nullish att = false ->
  js_or (js_or (prop h att "content_type") (prop h att "contentType"))
        (VStr "") = VStr s ->
  Spec.mime_kind s = Some video ->
  exists rest,
    Index.extractMedia h message = Ok (Index.mediaOf h att video :: rest).
Proof.
  intros Hlike Harr Hpre%forallb_Forall Hn Hs Hk.
  unfold Spec.message_like, Spec.elements in Hlike.
  apply andb_prop in Hlike as [Ha He]. rewrite Harr in Ha. simpl in Ha.
  apply forallb_app_inv in Ha as [_ Ha]. simpl in Ha.
  apply andb_prop in Ha as [_ Hpost%forallb_Forall].
  apply forallb_Forall in He.
  unfold Index.extractMedia. rewrite !get_opt_ok. cbn [bind]. rewrite Harr.
  rewrite collect_app.
  rewrite (collect_nil (Index.extractAttachment h) pre).
  2:{ eapply Forall_impl; [exact Hpre|].
      apply Index_attachment_without_media. }
  cbn [bind]. simpl collect.
  rewrite (Index_extractAttachment_record h att s) by done. rewrite Hk.
  cbn [bind].
  destruct (collect_ok (Index.extractAttachment h) post) as [r1 ->].
  { eapply Forall_impl; [exact Hpost|]. apply Index_extractAttachment_like. }
  cbn [bind].
  assert (exists m2,
    match as_array h (prop h message "embeds") with
    | Some xs => collect (Index.extractEmbed h) xs
    | None => Ok []
    end = Ok m2) as [m2 ->].
  { destruct (as_array h (prop h message "embeds")); [|eauto].
    apply collect_ok. eapply Forall_impl; [exact He|].
    apply Index_extractEmbed_like. }
  cbn [bind]. simpl. eauto.
Qed.

(** List-returning variant: without such an attachment, the first embed
    with a video or image field gives the first descriptor: gifv with
    video, else image, else video. *)
Lemma Index_first_embed h message pre embed post :
  Spec.message_like h message = true ->
  forallb (Spec.attachment_without_media h)
          (Spec.elements h (prop h message "attachments")) = true ->
  as_array h (prop h message "embeds") = Some (pre ++ embed :: post) ->
  forallb (Spec.embed_without_media h) pre = true ->
  let ty := prop h embed "type" in
  let video := prop h embed "video" in
  let image := prop h embed "image" in
  truthy video || truthy image = true ->
  exists rest,
    Index.extractMedia h message
    = Ok ((if is_str ty "gifv" && truthy video
           then Index.gifvOf h embed video
           else if truthy image then Index.mediaOf h image false
           else Index.mediaOf h video true) :: rest).
Proof.
  intros Hlike Hatt%forallb_Forall Harr Hpre%forallb_Forall ty video image Hk.
  unfold Spec.message_like, Spec.elements in Hlike.
  apply andb_prop in Hlike as [_ He]. rewrite Harr in He. simpl in He.
  apply forallb_app_inv in He as [_ He]. simpl in He.
  apply andb_prop in He as [Hn%negb_true_iff Hpost%forallb_Forall].
  unfold Index.extractMedia. rewrite !get_opt_ok. cbn [bind].
  assert (match as_array h (prop h message "attachments") with
          | Some xs => collect (Index.extractAttachment h) xs
          | None => Ok []
          end = Ok []) as ->.
  { unfold Spec.elements in Hatt.
    destruct (as_array h (prop h message "attachments")); [|done].
    apply collect_nil. eapply Forall_impl; [exact Hatt|].
    apply Index_attachment_without_media. }
  cbn [bind]. rewrite Harr, collect_app.
  rewrite (collect_nil (Index.extractEmbed h) pre).
  2:{ eapply Forall_impl; [exact Hpre|]. apply Index_embed_without_media. }
  cbn [bind]. simpl collect.
  rewrite Index_extractEmbed_record by done. fold ty video image.
  cbn [bind].
  destruct (collect_ok (Index.extractEmbed h) post) as [r1 ->].
  { eapply Forall_impl; [exact Hpost|]. apply Index_extractEmbed_like. }
  cbn [bind]. simpl.
  destruct (is_str ty "gifv") eqn:Hty; destruct (truthy video) eqn:Hv;
    destruct (truthy image) eqn:Hi; simpl; try done; eauto.
Qed.

End Precedence.

(** ** C3: gifv embeds *)

(** C3, as stated, fails on [src/src/index.ts]: for a gifv embed with a
    video and an image field its extractor produces the video descriptor and
    then an image descriptor. *)
Lemma Index_gifv_embed_image_descriptor :
  Index.extractMedia (F := unit) (Samples.video_image_embed "gifv") (VRef 0)
  = Ok [ {| Index.url := VStr "v.mp4"; Index.proxyUrl := VStr "v.mp4";
            Index.isVideo := true |};
         {| Index.url := VStr "i.png"; Index.proxyUrl := VStr "i.png";
            Index.isVideo := false |} ]
  /\ ~ (forall d media,
          Index.extractMedia (F := unit)
            (Samples.video_image_embed "gifv") (VRef 0) = Ok media ->
          In d media -> Index.isVideo d = true).
Proof.
  split; [by vm_compute|]. intros H.
  specialize (H {| Index.url := VStr "i.png"; Index.proxyUrl := VStr "i.png";
                   Index.isVideo := false |} _ eq_refl).
  simpl in H. discriminate H. right. left. reflexivity.
Qed.

(** C3 (amended). For every embed of type gifv with a video field, the
    first descriptor the extractor builds for it is the video descriptor
    ([isVideo] true): the first-match variant builds no other; the
    list-returning variant lists after it the image descriptor of the
    embed's image field, if it has one, and nothing else. So when that
    embed is the first item of a message to carry media, the descriptor
    returned (the first of the list, in [src/src/index.ts]) is the video
    descriptor. *)
Theorem gifv_embed_video_first (F : Type) (h : gmap loc (obj F)) embed :
  prop h embed "type" = VStr "gifv" ->
  truthy (prop h embed "video") = true ->
  let video := prop h embed "video" in
  let image := prop h embed "image" in
  Metro.extractEmbed h embed = Ok (Some (Metro.gifvOf h embed video))
  /\ Metro.isVideo (Metro.gifvOf h embed video) = true
  /\ Index.extractEmbed h embed
     = Ok (Index.gifvOf h embed video
           :: (if truthy image then [Index.mediaOf h image false] else []))
  /\ Index.isVideo (Index.gifvOf h embed video) = true
  /\ (forall message pre post,
        forallb (Spec.attachment_without_media h)
                (Spec.elements h (prop h message "attachments")) = true ->
        as_array h (prop h message "embeds") = Some (pre ++ embed :: post) ->
        forallb (Spec.embed_without_media h) pre = true ->
        Metro.extractMedia h message
        = Ok (Some (Metro.gifvOf h embed video)))
  /\ (forall message pre post,
        Spec.message_like h message = true ->
        forallb (Spec.attachment_without_media h)
                (Spec.elements h (prop h message "attachments")) = true ->
        as_array h (prop h message "embeds") = Some (pre ++ embed :: post) ->
        forallb (Spec.embed_without_media h) pre = true ->
        exists rest,
          Index.extractMedia h message
          = Ok (Index.gifvOf h embed video :: rest)).
Proof.
  intros Hty Hv. simpl.
  assert (nullish embed = false) as Hn.
  { destruct embed; try done; by vm_compute in Hty. }
  rewrite Metro_extractEmbed_record, Index_extractEmbed_record by done.
  rewrite Hty, Hv. simpl. split_and!; try done.
  - by rewrite app_nil_r.
  - intros message pre post Hatt Harr Hpre.
    rewrite (Metro_first_embed h message pre embed post Hatt Harr Hpre Hn).
    + by rewrite Hty, Hv.
    + by rewrite Hv.
  - intros message pre post Hlike Hatt Harr Hpre.
    destruct (Index_first_embed h message pre embed post
                Hlike Hatt Harr Hpre) as [rest Hr].
    + by rewrite Hv.
    + exists rest. rewrite Hr. by rewrite Hty, Hv.
Qed.

Lemma gifv_embed_video_first_witness :
  Index.extractEmbed (F := unit) (Samples.video_image_embed "gifv") (VRef 2)
  = Ok [ {| Index.url := VStr "v.mp4"; Index.proxyUrl := VStr "v.mp4";
            Index.isVideo := true |};
         {| Index.url := VStr "i.png"; Index.proxyUrl := VStr "i.png";
            Index.isVideo := false |} ]
  /\ Metro.extractMedia (F := unit) (Samples.video_image_embed "gifv")
       (VRef 0)
     = Ok (Some {| Metro.url := VStr "v.mp4"; Metro.proxyURL := VStr "v.mp4";
                   Metro.width := VNum 0; Metro.height := VNum 0;
                   Metro.isVideo := true |}).
Proof.
  pose proof (gifv_embed_video_first unit
                (Samples.video_image_embed "gifv") (VRef 2)
                eq_refl eq_refl) as (_ & _ & H & _ & H' & _).
  split; [exact H|].
  exact (H' (VRef 0) [] [] eq_refl eq_refl eq_refl).
Defined.

Lemma hook_without_media_unchanged_witness :
  Index.afterHook Samples.text_call [VRef 0] (VRef 3)
  = Ok (Samples.text_call, VRef 3).
Proof.
  exact (proj1 hook_without_media_unchanged
           Samples.text_call [VRef 0] (VRef 3) eq_refl).
Defined.

(** ** C10: the hook mutates the return value in place *)

(** C10. Whatever the hooks return is the host's return value itself; the
    heap is either left as it was, or changed by appending a new favourite
    item at the end of the list the hook found, whose earlier elements keep
    their places, every other cell being as before. *)
Theorem hook_mutates_in_place :
  (forall (h : gmap loc (obj Index.closure)) args result h' v,
     Index.afterHook h args result = Ok (h', v) ->
     v = result
     /\ (untouched h h'
         \/ exists l fav media,
              Index.target h result = Some l
              /\ appended h h' l fav
              /\ favourite_item h h' fav (Index.FavouriteMedia media)))
  /\ (forall (h : gmap loc (obj Metro.closure)) args ret h' v,
        Metro.afterActions h args ret = Ok (h', v) ->
        v = ret
        /\ (untouched h h'
            \/ exists l fav d,
                 Metro.target h ret = Some l
                 /\ appended h h' l fav
                 /\ favourite_item h h' fav (Metro.OnPress d))).
Proof.
  split.
  - intros h args result h' v H.
    destruct (Index.extractMedia h (nth 0 args VUndefined)) as [media|e] eqn:Hm.
    2:{ unfold Index.afterHook in H. by rewrite Hm in H. }
    destruct (Index_afterHook_effect h args result media Hm) as (h'' & E & Heff).
    rewrite E in H. injection H as <- <-. split; [done|].
    destruct media as [|d rest].
    + left. subst. apply untouched_refl.
    + destruct (Index.target h result) as [l|]; [|by left].
      destruct Heff as (fav & ? & ?). right. by exists l, fav, (d :: rest).
  - intros h args ret h' v H.
    destruct (Metro_messageOf_ok h args) as [m Hm].
    destruct (Metro.extractMedia h m) as [r|e] eqn:Hr.
    2:{ unfold Metro.afterActions in H. rewrite Hm in H. cbn [bind] in H.
        by rewrite Hr in H. }
    destruct (Metro_afterActions_effect h args ret m r Hm Hr) as (h'' & E & Heff).
    rewrite E in H. injection H as <- <-. split; [done|].
    destruct r as [d|].
    + destruct (Metro.target h ret) as [l|].
      * destruct Heff as (fav & ? & ?). right. by exists l, fav, d.
      * left. subst. apply untouched_refl.
    + left. subst. apply untouched_refl.
Qed.

Lemma hook_mutates_in_place_witness :
  exists h',
    Index.afterHook Samples.png_call [VRef 0] (VRef 3) = Ok (h', VRef 3)
    /\ (untouched Samples.png_call h'
        \/ exists l fav media,
             Index.target Samples.png_call (VRef 3) = Some l
             /\ appended Samples.png_call h' l fav
             /\ favourite_item Samples.png_call h' fav
                  (Index.FavouriteMedia media)).
Proof.
  eexists.
  assert (Index.afterHook Samples.png_call [VRef 0] (VRef 3)
          = Ok (_, VRef 3)) as H by (vm_compute; reflexivity).
  split; [exact H|].
  exact (proj2 (proj1 hook_mutates_in_place _ _ _ _ _ H)).
Defined.

(** ** C5: where the hook looks for the list *)

(** C5, as stated, fails: a return value [{options: [...]}] holds a list
    in its [options] field, yet neither hook appends to it; nor does the
    hook of [src/src/index.ts] look into a props tree, nor the first-match
    hook into [items]. *)
Lemma hook_ignores_options_field :
  (exists h',
     Index.afterHook Samples.png_call [VRef 0] (VRef 6) = Ok (h', VRef 6)
     /\ h' !! 3 = Some (OArr [VRef 4]))
  /\ Metro.afterActions Samples.png_call [VRef 0] (VRef 6)
     = Ok (Samples.png_call, VRef 6)
  /\ (exists h',
        Index.afterHook Samples.png_call [VRef 0] (VRef 7) = Ok (h', VRef 7)
        /\ h' !! 3 = Some (OArr [VRef 4]))
  /\ Metro.afterActions Samples.png_call [VRef 0] (VRef 5)
     = Ok (Samples.png_call, VRef 5).
Proof.
  split; [|split; [|split]].
  - eexists. split; [vm_compute; reflexivity|]. vm_compute. reflexivity.
  - vm_compute. reflexivity.
  - eexists. split; [vm_compute; reflexivity|]. vm_compute. reflexivity.
  - vm_compute. reflexivity.
Qed.

(** The hooks append to the list they find, and only there. *)
Lemma Index_appends_to_target (h : gmap loc (obj Index.closure)) args result d rest :
  Index.extractMedia h (nth 0 args VUndefined) = Ok (d :: rest) ->
  match Index.target h result with
  | Some l => Index.appends_favourite h args result l d
  | None =>
      exists h', Index.afterHook h args result = Ok (h', result)
                 /\ untouched h h'
  end.
Proof.
  intros Hm.
  destruct (Index_afterHook_effect h args result _ Hm) as (h' & E & Heff).
  destruct (Index.target h result) as [l|].
  - destruct Heff as (fav & ? & ?). by exists h', fav, rest.
  - by exists h'.
Qed.

Lemma Metro_appends_to_target (h : gmap loc (obj Metro.closure)) args ret message d :
  Metro.messageOf h args = Ok message ->
  Metro.extractMedia h message = Ok (Some d) ->
  match Metro.target h ret with
  | Some l => Metro.appends_favourite h args ret l d
  | None => Metro.afterActions h args ret = Ok (h, ret)
  end.
Proof.
  intros Hm Hr.
  destruct (Metro_afterActions_effect h args ret message _ Hm Hr)
    as (h' & E & Heff).
  destruct (Metro.target h ret) as [l|].
  - destruct Heff as (fav & ? & ?). by exists h', fav.
  - by subst.
Qed.

(** C5 (amended). On a message with media, the hook of [src/src/index.ts]
    appends the favourite item to the return value when it is a list, else
    to its [items] when that is a list, else to its [actions] when that is a
    list; the hook of the first-match variant appends to the return value
    when it is a list, else to its [props.options] when that is a list,
    else to the [props.options] of the first element of [props.children]
    that has such a list. When there is no such list the return value is
    handed back with every cell as it was. *)
Theorem hook_appends_to_target :
  (forall (h : gmap loc (obj Index.closure)) args result d rest,
     Index.extractMedia h (nth 0 args VUndefined) = Ok (d :: rest) ->
     match Index.target h result with
     | Some l => Index.appends_favourite h args result l d
     | None =>
         exists h', Index.afterHook h args result = Ok (h', result)
                    /\ untouched h h'
     end)
  /\ (forall (h : gmap loc (obj Metro.closure)) args ret message d,
        Metro.messageOf h args = Ok message ->
        Metro.extractMedia h message = Ok (Some d) ->
        match Metro.target h ret with
        | Some l => Metro.appends_favourite h args ret l d
        | None => Metro.afterActions h args ret = Ok (h, ret)
        end).
Proof.
  split.
  - apply Index_appends_to_target.
  - apply Metro_appends_to_target.
Qed.

Lemma hook_appends_to_target_witness :
  Index.appends_favourite Samples.png_call [VRef 0] (VRef 5) 3
    {| Index.url := VStr "a.png"; Index.proxyUrl := VStr "a.png";
       Index.isVideo := false |}.
Proof.
  exact (proj1 hook_appends_to_target Samples.png_call [VRef 0] (VRef 5)
           _ [] eq_refl).
Defined.

(** ** C1: one favourite item, for the first media item *)

(** C1, as stated, fails: on the message of the spec's example, which has
    an image attachment, nothing is appended when the builder returned
    [null]; and for an embed of type rich with both a video and an image
    field, [src/src/index.ts] puts the image first, the first-match variant
    the video. *)
Lemma hook_without_list_appends_nothing :
  Metro.afterActions Samples.png_call [VRef 0] VNull
  = Ok (Samples.png_call, VNull)
  /\ (exists h',
        Index.afterHook Samples.png_call [VRef 0] VNull = Ok (h', VNull)
        /\ h' !! 3 = Some (OArr [VRef 4]))
  /\ Index.extractMedia (F := unit) (Samples.video_image_embed "rich")
       (VRef 0)
     = Ok [ {| Index.url := VStr "i.png"; Index.proxyUrl := VStr "i.png";
               Index.isVideo := false |};
            {| Index.url := VStr "v.mp4"; Index.proxyUrl := VStr "v.mp4";
               Index.isVideo := true |} ]
  /\ Metro.extractMedia (F := unit) (Samples.video_image_embed "rich")
       (VRef 0)
     = Ok (Some {| Metro.url := VStr "v.mp4"; Metro.proxyURL := VStr "v.mp4";
                   Metro.width := VNum 0; Metro.height := VNum 0;
                   Metro.isVideo := true |}).
Proof.
  split; [|split; [|split]].
  - vm_compute. reflexivity.
  - eexists. split; [vm_compute; reflexivity|]. vm_compute. reflexivity.
  - vm_compute. reflexivity.
  - vm_compute. reflexivity.
Qed.

(** The handler of [src/src/index.ts] only looks at the first descriptor
    of the list its closure holds. *)
Lemma Index_press_first e d rest :
  Index.press e (Index.FavouriteMedia (d :: rest))
  = Index.favouriteMedia e [d].
Proof. reflexivity. Qed.

(** C1 (amended). Whenever the hook finds a list in the return value (see
    C5), it appends to it exactly one favourite item, bound to the first
    media item of the message: the first attachment whose content type is
    of kind image or video by the variant's own test, else the media of the
    first embed that has a video or image field. Within an embed the
    first-match variant takes gifv with video, else the video field, else
    the image field; [src/src/index.ts] takes gifv with video, else the
    image field, else the video field, and its handler uses the first
    descriptor of its list. *)
Theorem favourite_item_for_first_media :
  (forall (h : gmap loc (obj Metro.closure)) args ret message l
          pre att post s,
     Metro.messageOf h args = Ok message ->
     Metro.target h ret = Some l ->
     as_array h (prop h message "attachments") = Some (pre ++ att :: post) ->
     forallb (Spec.attachment_without_media h) pre = true ->
     prop h att "content_type" = VStr s ->
     startsWith (before_semicolon s) "image/"
     || startsWith (before_semicolon s) "video/" = true ->
     Metro.appends_favourite h args ret l
       (Metro.mediaOf h att (startsWith (before_semicolon s) "video/")))
  /\ (forall (h : gmap loc (obj Metro.closure)) args ret message l
             pre embed post,
        Metro.messageOf h args = Ok message ->
        Metro.target h ret = Some l ->
        forallb (Spec.attachment_without_media h)
                (Spec.elements h (prop h message "attachments")) = true ->
        as_array h (prop h message "embeds") = Some (pre ++ embed :: post) ->
        forallb (Spec.embed_without_media h) pre = true ->
        nullish embed = false ->
        truthy (prop h embed "video") || truthy (prop h embed "image")
        = true ->
        Metro.appends_favourite h args ret l
          (if is_str (prop h embed "type") "gifv"
              && truthy (prop h embed "video")
           then Metro.gifvOf h embed (prop h embed "video")
           else if truthy (prop h embed "video")
           then Metro.mediaOf h (prop h embed "video") true
           else Metro.mediaOf h (prop h embed "image") false))
  /\ (forall (h : gmap loc (obj Index.closure)) args result l
             pre att post s video,
        let message := nth 0 args VUndefined in
        Spec.message_like h message = true ->
        Index.target h result = Some l ->
        as_array h (prop h message "attachments")
        = Some (pre ++ att :: post) ->
        forallb (Spec.attachment_without_media h) pre = true ->
        nullish att = false ->
        js_or (js_or (prop h att "content_type") (prop h att "contentType"))
              (VStr "") = VStr s ->
        Spec.mime_kind s = Some video ->
        Index.appends_favourite h args result l (Index.mediaOf h att video))
  /\ (forall (h : gmap loc (obj Index.closure)) args result l
             pre embed post,
        let message := nth 0 args VUndefined in
        Spec.message_like h message = true ->
        Index.target h result = Some l ->
        forallb (Spec.attachment_without_media h)
                (Spec.elements h (prop h message "attachments")) = true ->
        as_array h (prop h message "embeds") = Some (pre ++ embed :: post) ->
        forallb (Spec.embed_without_media h) pre = true ->
        truthy (prop h embed "video") || truthy (prop h embed "image")
        = true ->
        Index.appends_favourite h args result l
          (if is_str (prop h embed "type") "gifv"
              && truthy (prop h embed "video")
           then Index.gifvOf h embed (prop h embed "video")
           else if truthy (prop h embed "image")
           then Index.mediaOf h (prop h embed "image") false
           else Index.mediaOf h (prop h embed "video") true))
  /\ (forall e d rest,
        Index.press e (Index.FavouriteMedia (d :: rest))
        = Index.favouriteMedia e [d]).
Proof.
  split; [|split; [|split; [|split]]].
  - intros h args ret m l pre att post s Hm Ht Harr Hpre Hs Hk.
    pose proof (Metro_first_attachment h m pre att post s Harr Hpre Hs Hk)
      as Hr.
    pose proof (Metro_appends_to_target h args ret m _ Hm Hr) as H.
    by rewrite Ht in H.
  - intros h args ret m l pre embed post Hm Ht Hatt Harr Hpre Hn Hk.
    pose proof (Metro_first_embed h m pre embed post Hatt Harr Hpre Hn Hk)
      as Hr.
    pose proof (Metro_appends_to_target h args ret m _ Hm Hr) as H.
    by rewrite Ht in H.
  - intros h args result l pre att post s video m Hlike Ht Harr Hpre Hn Hs Hk.
    destruct (Index_first_attachment h m pre att post s video
                Hlike Harr Hpre Hn Hs Hk) as [rest Hr].
    pose proof (Index_appends_to_target h args result _ _ Hr) as H.
    by rewrite Ht in H.
  - intros h args result l pre embed post m Hlike Ht Hatt Harr Hpre Hk.
    destruct (Index_first_embed h m pre embed post Hlike Hatt Harr Hpre Hk)
      as [rest Hr].
    pose proof (Index_appends_to_target h args result _ _ Hr) as H.
    by rewrite Ht in H.
  - intros. apply Index_press_first.
Qed.

Lemma favourite_item_for_first_media_witness :
  Metro.appends_favourite Samples.png_call [VRef 0] (VRef 7) 3
    {| Metro.url := VStr "a.png"; Metro.proxyURL := VStr "a.png";
       Metro.width := VNum 100; Metro.height := VNum 50;
       Metro.isVideo := false |}.
Proof.
  exact (proj1 favourite_item_for_first_media Samples.png_call
           [VRef 0] (VRef 7) (VRef 0) 3 [] (VRef 2) []
           "image/png; charset=x"
           eq_refl eq_refl eq_refl eq_refl eq_refl eq_refl).
Defined.

(** ** C7: the favourite handler *)







(** In the first-match variant an exception can leave the handler: the
    lookup of the toast module in the [catch] block is not guarded. *)
Lemma Metro_onPress_can_throw :
  fst (Metro.onPress
         {| Metro.findFavorites := Found {| addToFavorites := Some Throws |};
            Metro.findShowToast := LookupThrows |}
         Samples.png
         {| Metro.trace := []; Metro._favouritesAPI := None |})
  = Throw HostError.
Proof. reflexivity. Qed.

(** With the [Share] of react-native, which has no [open], the share call
    of [src/src/index.ts] throws a [TypeError] that the handler logs: after
    a throwing [addToFavorites], and with no favourites API, no share sheet
    is opened. *)
Lemma Index_share_open_not_a_function :
  let throwing := {| Index.findFavorites :=
                       Found {| addToFavorites := Some Throws |};
                     Index.platformIsAndroid := true;
                     Index.toastAndroid := Returns;
                     Index.shareOpen := None |} in
  let unavailable := {| Index.findFavorites := Missing;
                        Index.platformIsAndroid := true;
                        Index.toastAndroid := Returns;
                        Index.shareOpen := None |} in
  let d := {| Index.url := VStr "a.png"; Index.proxyUrl := VStr "a.png";
              Index.isVideo := false |} in
  Index.favouriteMedia throwing [d] []
  = (Ok tt, [ AddToFavorites (Index.favouriteArg d);
              Log "addToFavorites threw";
              Log "Share.open cancelled or failed" ])
  /\ Index.favouriteMedia unavailable [d] []
     = (Ok tt, [ Log "Share.open cancelled or failed" ]).
Proof. by split. Qed.



(** ** C6: the life cycle *)

Section Lifecycle.
Variable fails : nat -> bool.

(** Installing a patch and keeping its handle. *)
Lemma install_inv s :
  lifecycle_inv s ->
  lifecycle_inv (snd (mbind after pushCleanup s)).
Proof.
  intros (Hnd & Hinst & Hlt & Hinv & Hnd' & Hdisj).
  unfold mbind, after, pushCleanup. simpl. repeat split; simpl.
  - apply NoDup_app. repeat split; [done| |apply NoDup_singleton].
    intros id Hid ->%list_elem_of_singleton. apply Hlt in Hid. lia.
  - rewrite elem_of_cons, elem_of_app, list_elem_of_singleton, Hinst. tauto.
  - rewrite elem_of_cons, elem_of_app, list_elem_of_singleton, Hinst. tauto.
  - intros id [Hid| ->%list_elem_of_singleton]%elem_of_app; [|lia].
    apply Hlt in Hid. lia.
  - intros id Hid. apply Hinv in Hid. lia.
  - done.
  - intros id [Hid| ->%list_elem_of_singleton]%elem_of_app.
    + by apply Hdisj.
    + intros Hid%Hinv. lia.
Qed.

(** One turn of the loop of [onDisable]: the handle is called and its
    patch is gone, whether or not it throws. *)
Lemma forEach_handles_cons fn l s :
  forEach (fun fn => try_catch (callHandle fails fn) (fun _ => ret tt))
          (fn :: l) s
  = forEach (fun fn => try_catch (callHandle fails fn) (fun _ => ret tt)) l
      {| cleanups := cleanups s;
         host := {| installed := filter (fun x => negb (Nat.eqb x fn))
                                        (installed (host s));
                    next := next (host s);
                    invoked := invoked (host s) ++ [fn] |} |}.
Proof.
  simpl. unfold mbind at 1. unfold try_catch at 1, callHandle at 1.
  by destruct (fails fn).
Qed.

(** The loop of [onDisable]: every handle of the list is called, in order,
    whether or not it throws, and its patch is gone. *)
Lemma forEach_handles l s :
  let r := forEach (fun fn => try_catch (callHandle fails fn)
                                        (fun _ => ret tt)) l s in
  fst r = Ok tt
  /\ cleanups (snd r) = cleanups s
  /\ next (host (snd r)) = next (host s)
  /\ invoked (host (snd r)) = invoked (host s) ++ l
  /\ (forall id, id ∈ installed (host (snd r))
                 <-> id ∈ installed (host s) /\ id ∉ l).
Proof.
  revert s. induction l as [|fn l IH]; intros s.
  - simpl. split; [done|]. split; [done|]. split; [done|].
    split; [by rewrite app_nil_r|].
    intros id. split; [|by intros [? _]].
    intros ?. split; [done|]. apply not_elem_of_nil.
  - cbv zeta. rewrite forEach_handles_cons.
    match goal with
    | |- context [forEach ?f l ?s'] =>
        destruct (IH s') as (H1 & H2 & H3 & H4 & H5)
    end.
    simpl in H2, H3, H4, H5.
    split; [done|]. split; [done|]. split; [done|].
    split; [by rewrite H4, <- app_assoc|].
    intros id. rewrite H5, list_elem_of_filter, elem_of_cons.
    rewrite negb_True, Is_true_true, Nat.eqb_eq. tauto.
Qed.

Lemma disable_effect s :
  lifecycle_inv s ->
  let r := (mbind (forEach (fun fn => try_catch (callHandle fails fn)
                                                (fun _ => ret tt))
                           (cleanups s))
                  (fun _ => clearCleanups)) s in
  fst r = Ok tt
  /\ invoked (host (snd r)) = invoked (host s) ++ cleanups s
  /\ NoDup (invoked (host (snd r)))
  /\ installed (host (snd r)) = []
  /\ cleanups (snd r) = []
  /\ lifecycle_inv (snd r).
Proof.
  intros (Hnd & Hinst & Hlt & Hinv & Hnd' & Hdisj). simpl.
  destruct (forEach_handles (cleanups s) s) as (H1 & H2 & H3 & H4 & H5).
  unfold mbind.
  destruct (forEach _ (cleanups s) s) as [[[]|e] s'] eqn:E;
    simpl in *; [|done].
  assert (installed (host s') = []) as Hnil.
  { apply elem_of_nil_inv. intros id [Hid Hnot]%H5. by apply Hnot, Hinst. }
  assert (NoDup (invoked (host s'))) as Hnd''.
  { rewrite H4. apply NoDup_app. repeat split; [done| |done].
    intros id Hid Hid'. by apply (Hdisj id). }
  unfold lifecycle_inv. simpl. split_and!; try done.
  - apply NoDup_nil_2.
  - intros id. rewrite Hnil. done.
  - by intros id ?%elem_of_nil.
  - intros id. rewrite H4, H3.
    intros [Hid|Hid]%elem_of_app; auto.
  - by intros id ?%elem_of_nil.
Qed.

Lemma initial_inv : lifecycle_inv initial.
Proof.
  unfold lifecycle_inv. simpl. split_and!; try done;
    try apply NoDup_nil_2; by intros id ?%elem_of_nil.
Qed.

Lemma Index_step_inv c s :
  lifecycle_inv s -> lifecycle_inv (snd (Index.step fails c s)).
Proof.
  intros Hs. destruct c as [find|]; simpl.
  - unfold Index.onEnable.
    destruct (Index.findMessageActionsModule find); [|done].
    by apply install_inv.
  - by apply disable_effect.
Qed.

Lemma Index_run_inv cs s :
  lifecycle_inv s -> lifecycle_inv (Index.run fails cs s).
Proof.
  revert s. induction cs as [|c cs IH]; intros s Hs; [done|].
  simpl. by apply IH, Index_step_inv.
Qed.

Lemma patch_inv patcher target s :
  lifecycle_inv s ->
  lifecycle_inv
    (snd (mbind (Overlay.patchComponent patcher target) Overlay.pushIfAny s)).
Proof.
  intros Hs. unfold Overlay.patchComponent.
  destruct (negb target || negb patcher); [done|].
  by apply (install_inv s).
Qed.

Lemma Overlay_step_inv c s :
  lifecycle_inv s -> lifecycle_inv (snd (Overlay.step fails c s)).
Proof.
  intros Hs. destruct c as [e|]; simpl.
  - unfold Overlay.onEnable.
    assert (forall b s,
      lifecycle_inv s ->
      lifecycle_inv (snd (mbind
        match Overlay.findMediaOverlayModule e with
        | Some target =>
            mbind (Overlay.patchComponent b target) Overlay.pushIfAny
        | None => ret tt
        end
        (fun _ =>
           match Overlay.findEmbedModule e with
           | Some target =>
               mbind (Overlay.patchComponent b target) Overlay.pushIfAny
           | None => ret tt
           end) s))) as Hboth.
    { intros b s0 Hs0. unfold mbind at 1.
      destruct (Overlay.findMediaOverlayModule e) as [t1|].
      - pose proof (patch_inv b t1 s0 Hs0) as H1.
        destruct (mbind (Overlay.patchComponent b t1) Overlay.pushIfAny s0)
          as [[[]|] s1] eqn:E1; simpl in H1.
        + destruct (Overlay.findEmbedModule e) as [t2|]; [|done].
          by apply patch_inv.
        + done.
      - simpl. destruct (Overlay.findEmbedModule e) as [t2|]; [|done].
        by apply patch_inv. }
    destruct (Overlay.requirePatcher e); [by apply Hboth..|done].
  - by apply disable_effect.
Qed.

Lemma Overlay_run_inv cs s :
  lifecycle_inv s -> lifecycle_inv (Overlay.run fails cs s).
Proof.
  revert s. induction cs as [|c cs IH]; intros s Hs; [done|].
  simpl. by apply IH, Overlay_step_inv.
Qed.

(** A second [onDisable] in a row finds no handle: it changes nothing. *)
Lemma disable_twice s :
  cleanups s = [] ->
  (mbind (forEach (fun fn => try_catch (callHandle fails fn)
                                       (fun _ => ret tt))
                  (cleanups s))
         (fun _ => clearCleanups)) s = (Ok tt, s).
Proof.
  intros H. rewrite H. destruct s as [c p]. simpl in H. by subst.
Qed.

End Lifecycle.

(** C6. After every sequence of life-cycle calls, whichever handles throw,
    [onDisable] does not throw; it calls every handle of the clean-up list,
    in order, and over the whole run no handle is ever called twice; it
    leaves no patch installed and an empty clean-up list; a second
    [onDisable] in a row does not throw and changes nothing. This holds for
    [src/src/index.ts] and for the render-overlay variant. *)
Theorem disable_invokes_every_handle :
  (forall (fails : nat -> bool) (cs : list Index.lifecycle),
     let s := Index.run fails cs initial in
     let r := Index.onDisable fails s in
     fst r = Ok tt
     /\ invoked (host (snd r)) = invoked (host s) ++ cleanups s
     /\ NoDup (invoked (host (snd r)))
     /\ installed (host (snd r)) = []
     /\ cleanups (snd r) = []
     /\ Index.onDisable fails (snd r) = (Ok tt, snd r))
  /\ (forall (fails : nat -> bool) (cs : list Overlay.lifecycle),
        let s := Overlay.run fails cs initial in
        let r := Overlay.onDisable fails s in
        fst r = Ok tt
        /\ invoked (host (snd r)) = invoked (host s) ++ cleanups s
        /\ NoDup (invoked (host (snd r)))
        /\ installed (host (snd r)) = []
        /\ cleanups (snd r) = []
        /\ Overlay.onDisable fails (snd r) = (Ok tt, snd r)).
Proof.
  split; intros fails cs s r.
  - destruct (disable_effect fails s (Index_run_inv fails cs _ initial_inv))
      as (H1 & H2 & H3 & H4 & H5 & H6).
    repeat split; try done. by apply disable_twice.
  - destruct (disable_effect fails s (Overlay_run_inv fails cs _ initial_inv))
      as (H1 & H2 & H3 & H4 & H5 & H6).
    repeat split; try done. by apply disable_twice.
Qed.

(** * Further properties of the code *)

(** ** Module discovery *)

(** The loop over candidate keys stops at the first key for which the
    lookup finds a module. *)
Lemma firstModule_Some find keys key :
  Index.firstModule find keys = Some key <->
  exists pre post, keys = pre ++ key :: post
    /\ (exists m, find key = Found m)
    /\ Forall (fun k => forall m, find k <> Found m) pre.
Proof.
  induction keys as [|k keys IH]; simpl.
  - split; [done|]. intros (pre & post & H & _). by destruct pre.
  - destruct (find k) as [m| |] eqn:Hk.
    + split.
      * intros [= <-]. exists [], keys. split; [done|]. split; [eauto|].
        constructor.
      * intros (pre & post & H & [m' Hm'] & Hpre).
        destruct pre as [|k' pre]; simpl in H.
        -- by injection H as ->.
        -- injection H as <- _. apply Forall_cons in Hpre as [Hk' _].
           by destruct (Hk' m).
    + rewrite IH. split.
      * intros (pre & post & -> & Hm & Hpre). exists (k :: pre), post.
        split; [done|]. split; [done|]. constructor; [|done].
        intros m. by rewrite Hk.
      * intros (pre & post & H & [m' Hm'] & Hpre).
        destruct pre as [|k' pre]; simpl in H.
        -- injection H as -> _. by rewrite Hk in Hm'.
        -- injection H as <- ->. apply Forall_cons in Hpre as [_ Hpre].
           exists pre, post. eauto.
    + rewrite IH. split.
      * intros (pre & post & -> & Hm & Hpre). exists (k :: pre), post.
        split; [done|]. split; [done|]. constructor; [|done].
        intros m. by rewrite Hk.
      * intros (pre & post & H & [m' Hm'] & Hpre).
        destruct pre as [|k' pre]; simpl in H.
        -- injection H as -> _. by rewrite Hk in Hm'.
        -- injection H as <- ->. apply Forall_cons in Hpre as [_ Hpre].
           exists pre, post. eauto.
Qed.

Lemma firstModule_None find keys :
  Index.firstModule find keys = None <->
  Forall (fun k => forall m, find k <> Found m) keys.
Proof.
  induction keys as [|k keys IH]; simpl.
  - split; [constructor|done].
  - destruct (find k) as [m| |] eqn:Hk.
    + split; [done|]. intros [Hk' _]%Forall_cons. by destruct (Hk' m).
    + rewrite IH. split.
      * intros H. constructor; [|done]. intros m. by rewrite Hk.
      * by intros [_ H]%Forall_cons.
    + rewrite IH. split.
      * intros H. constructor; [|done]. intros m. by rewrite Hk.
      * by intros [_ H]%Forall_cons.
Qed.

(** X1. [findMessageActionsModule] returns the first of its four candidate
    keys, in their listed order, for which the lookup finds a module,
    lookups that throw or find nothing being skipped; it returns nothing
    exactly when no candidate is found. *)
Theorem findMessageActionsModule_first_found
  (find : string -> lookup unit) :
  (forall key,
     Index.findMessageActionsModule find = Some key <->
     exists pre post,
       [ "getMessageActions"; "messageActions"; "buildMessageActions";
         "MessageActions" ] = pre ++ key :: post
       /\ (exists m, find key = Found m)
       /\ Forall (fun k => forall m, find k <> Found m) pre)
  /\ (Index.findMessageActionsModule find = None <->
      Forall (fun k => forall m, find k <> Found m)
        [ "getMessageActions"; "messageActions"; "buildMessageActions";
          "MessageActions" ]).
Proof.
  split.
  - intros key. apply firstModule_Some.
  - apply firstModule_None.
Qed.

(** ** The favourite handlers *)

(** X2. In [src/src/index.ts], for every host and every non-empty media
    list, the handler never throws and makes its calls after those already
    made. When [addToFavorites] is a function that returns and the toast
    does not throw, the calls are the favourites call, then the toast on
    Android. In every other case the handler goes on to [Share.open]: a
    share sheet is opened, once and with the url of the first descriptor,
    exactly when the [Share] object has an [open] function; where it has
    none, as in react-native, no share sheet is ever opened, and the
    [TypeError] of the call is only logged. *)
Theorem favouriteMedia_share_iff_not_favourited e d rest tr :
  exists evs,
    Index.favouriteMedia e (d :: rest) tr = (Ok tt, tr ++ evs)
    /\ (In (ShareOpen (Index.url d)) evs
        <-> favourites_call_succeeds e = false
            /\ Index.shareOpen e <> None)
    /\ (favourites_call_succeeds e = true ->
        evs = AddToFavorites (Index.favouriteArg d)
              :: (if Index.platformIsAndroid e
                  then [Toast "Added to favourites ⭐"] else []))
    /\ (forall m, In (ShareOpen m) evs -> m = Index.url d)
    /\ length (List.filter (fun ev => match ev with
                                      | ShareOpen _ => true
                                      | _ => false
                                      end) evs) <= 1
    /\ (In (Log "Share.open cancelled or failed") evs
        <-> favourites_call_succeeds e = false
            /\ Index.shareOpen e <> Some Returns).
Proof.
  destruct e as [[[[[]|]]| |] [] [] [[]|]];
    cbv [Index.favouriteMedia Index.findFavoritesModule Index.showToast
         Index.callShareOpen favourites_call_succeeds mbind try_catch
         host_call emit ret throw
         Index.findFavorites Index.platformIsAndroid Index.toastAndroid
         Index.shareOpen addToFavorites negb orb];
    rewrite <- ?app_assoc;
    (eexists; split; [reflexivity|]);
    (split; [|split; [|split; [|split]]]);
    first [ by (simpl; lia)
          | intros m; simpl; intuition congruence
          | simpl; intuition congruence ].
Qed.

Ltac run_onPress :=
  cbv [Metro.onPress Metro.getFavouritesAPI Metro.toast Metro.call
       Metro.log mbind try_catch ret throw fst snd toast_is_safe
       Metro.trace Metro._favouritesAPI Metro.findFavorites
       Metro.findShowToast addToFavorites].

(** X3. In the first-match variant an exception leaves the press handler
    exactly when the toast can throw, that is when the lookup of the toast
    module throws or its [showToast] throws; whether the favourites API is
    there, and whether its call throws, makes no difference. *)
Theorem onPress_throws_iff_toast_throws e d s :
  fst (Metro.onPress e d s) = Ok tt <-> toast_is_safe e = true.
Proof.
  destruct s as [tr cache]. destruct e as [find toast].
  destruct cache as [[[[]|]]|]; destruct find as [[[[]|]]| |];
    destruct toast as [[[]|]| |]; run_onPress; split; congruence.
Qed.

(** X4. The favourites module is looked up once: when a press finds it, it
    is kept, and every later press uses the module kept whatever the lookup
    would now answer. A lookup that finds nothing keeps nothing, so that
    the next press looks again. *)
Theorem favourites_module_cached :
  (forall e d s m,
     Metro._favouritesAPI s = None ->
     Metro.findFavorites e = Found m ->
     Metro._favouritesAPI (snd (Metro.onPress e d s)) = Some m)
  /\ (forall e e' d s m,
        Metro._favouritesAPI s = Some m ->
        Metro.findShowToast e = Metro.findShowToast e' ->
        Metro.onPress e d s = Metro.onPress e' d s
        /\ Metro._favouritesAPI (snd (Metro.onPress e d s)) = Some m)
  /\ (forall e d s,
        Metro._favouritesAPI s = None ->
        (forall m, Metro.findFavorites e <> Found m) ->
        Metro._favouritesAPI (snd (Metro.onPress e d s)) = None).
Proof.
  split; [|split].
  - intros [find toast] d [tr cache] m. simpl. intros -> ->.
    destruct m as [[[]|]]; destruct toast as [[[]|]| |]; reflexivity.
  - intros [find toast] [find' toast'] d [tr cache] m. simpl. intros -> <-.
    destruct m as [[[]|]]; destruct toast as [[[]|]| |]; by split.
  - intros [find toast] d [tr cache]. simpl. intros -> Hno.
    destruct find as [m| |]; [by destruct (Hno m)| |];
      destruct toast as [[[]|]| |]; reflexivity.
Qed.

Lemma favourites_module_cached_witness :
  Metro._favouritesAPI
    (snd (Metro.onPress
            {| Metro.findFavorites :=
                 Found {| addToFavorites := Some Returns |};
               Metro.findShowToast := Missing |}
            Samples.png
            {| Metro.trace := []; Metro._favouritesAPI := None |}))
  = Some {| addToFavorites := Some Returns |}.
Proof.
  exact (proj1 favourites_module_cached
           {| Metro.findFavorites :=
                Found {| addToFavorites := Some Returns |};
              Metro.findShowToast := Missing |}
           Samples.png
           {| Metro.trace := []; Metro._favouritesAPI := None |}
           {| addToFavorites := Some Returns |}
           eq_refl eq_refl).
Defined.

(** ** The accessory of the render-overlay variant *)

(** X5. A press on the accessory never throws and always flips the
    favourited flag, whether or not a favourites component is found and
    whether or not its call fails, so that two presses restore the flag.
    Each press calls [addToFavorites] at most once, with the accessory's
    own argument, and logs at most one failure. *)
Theorem handlePress_toggles e p favourited tr :
  exists evs,
    OverlayRender.handlePress e p favourited tr
    = (Ok (negb favourited), tr ++ evs)
    /\ (evs = []
        \/ evs = [AddToFavorites (OverlayRender.favouriteArg p)]
        \/ evs = [AddToFavorites (OverlayRender.favouriteArg p);
                  Log "addToFavorites failed"]
        \/ evs = [Log "addToFavorites failed"])
    /\ fst (OverlayRender.handlePress e p (negb favourited)
              (tr ++ evs)) = Ok favourited.
Proof.
  assert (forall tr', fst (OverlayRender.handlePress e p (negb favourited) tr')
                      = Ok favourited) as Hsecond.
  { intros tr'. rewrite <- (negb_involutive favourited) at 2.
    destruct e as [[[| |[]]| |] [[| |[]]| |] [[| |[]]| |]]; reflexivity. }
  destruct e as [[[| |[]]| |] [[| |[]]| |] [[| |[]]| |]];
    cbv [OverlayRender.handlePress OverlayRender.findFavoriteButtonComponent
         OverlayRender.callMethod mbind try_catch host_call emit ret throw
         OverlayRender.findComponentByName OverlayRender.findByDisplayName
         OverlayRender.findByProps];
    rewrite <- ?app_assoc;
    (eexists; split;
       [first [reflexivity | by rewrite app_nil_r]
       |split; [simpl; tauto|apply Hsecond]]).
Qed.

(** ** The extractors *)

Section Provenance.
Context {F : Type}.
Implicit Types (h : gmap loc (obj F)).

Lemma truthy_js_or a b : truthy (js_or a b) = truthy a || truthy b.
Proof. unfold js_or. by destruct (truthy a) eqn:E. Qed.

(** An attachment that gives a descriptor is a record with a string
    content type of kind image or video. *)
Lemma Metro_extractAttachment_Some h att d :
  Metro.extractAttachment h att = Ok (Some d) ->
  nullish att = false
  /\ exists s, js_or (prop h att "content_type") (VStr "") = VStr s
       /\ startsWith (before_semicolon s) "image/"
          || startsWith (before_semicolon s) "video/" = true
       /\ d = Metro.mediaOf h att (startsWith (before_semicolon s) "video/").
Proof.
  intros H. destruct (nullish att) eqn:Hn.
  { unfold Metro.extractAttachment, get in H. by rewrite Hn in H. }
  split; [done|].
  destruct (js_or (prop h att "content_type") (VStr "")) as [| | | |s|] eqn:Hs;
    try (unfold Metro.extractAttachment in H;
         rewrite get_ok, or_else_Ok, Hs in H by done; done).
  exists s. split; [done|].
  rewrite (Metro_extractAttachment_record h att s) in H by done.
  destruct (_ || _); [|done]. injection H as <-. by split.
Qed.

(** An embed that gives a descriptor is a record with a video or image
    field, and the descriptor is built from it. *)
Lemma Metro_extractEmbed_Some h embed d :
  Metro.extractEmbed h embed = Ok (Some d) ->
  nullish embed = false
  /\ truthy (prop h embed "video") || truthy (prop h embed "image") = true
  /\ ((truthy (prop h embed "video") = true
       /\ d = Metro.gifvOf h embed (prop h embed "video"))
      \/ (exists o v, truthy o = true /\ d = Metro.mediaOf h o v)).
Proof.
  intros H. destruct (nullish embed) eqn:Hn.
  { unfold Metro.extractEmbed, get in H. by rewrite Hn in H. }
  split; [done|].
  rewrite Metro_extractEmbed_record in H by done.
  destruct (truthy (prop h embed "video")) eqn:Hv;
    destruct (truthy (prop h embed "image")) eqn:Hi;
    destruct (is_str (prop h embed "type") "gifv");
    simpl in H; try done; injection H as <-;
    (split; [done|]); eauto 6.
Qed.

(** Every descriptor of the first-match extractor is one of the two object
    literals of the source, built from a record of the message. *)
Lemma Metro_extractMedia_shape h message d (P : Metro.descriptor -> Prop) :
  (forall o v, truthy o = true -> P (Metro.mediaOf h o v)) ->
  (forall e video, truthy video = true -> P (Metro.gifvOf h e video)) ->
  Metro.extractMedia h message = Ok (Some d) -> P d.
Proof.
  intros Hmedia Hgifv. unfold Metro.extractMedia.
  destruct (truthy message) eqn:Hm; [|done]. simpl negb. cbv iota.
  rewrite !get_truthy by done. cbn [bind].
  assert (forall xs, first_some (Metro.extractAttachment h) xs = Ok (Some d)
                     -> P d) as Hatt.
  { intros xs (pre & x & post & _ & _ & Hx)%first_some_inv.
    apply Metro_extractAttachment_Some in Hx as (Hn & s & Hs & Hk & ->).
    apply Hmedia.
    destruct x; try done;
      (vm_compute in Hs; injection Hs as <-; by vm_compute in Hk). }
  assert (forall xs, first_some (Metro.extractEmbed h) xs = Ok (Some d)
                     -> P d) as Hemb.
  { intros xs (pre & x & post & _ & _ & Hx)%first_some_inv.
    apply Metro_extractEmbed_Some in Hx
      as (Hn & _ & [[Hv ->]|(o & v & Ho & ->)]); auto. }
  destruct (as_array h (prop h message "attachments")) as [xs|].
  - destruct (first_some (Metro.extractAttachment h) xs) as [[d'|]|] eqn:E;
      cbn [bind]; try done.
    + intros [= ->]. by eapply Hatt.
    + destruct (as_array h (prop h message "embeds")) as [ys|]; [|done].
      apply Hemb.
  - cbn [bind].
    destruct (as_array h (prop h message "embeds")) as [ys|]; [|done].
    apply Hemb.
Qed.

End Provenance.

(** X6. Every descriptor returned by the first-match extractor that has a
    url has a proxy url: the proxy url falls back on the url, so that the
    [src] handed to [addToFavorites] (the proxy url itself, without
    fallback in the handler) is never missing for a media item with a
    url. *)
Theorem Metro_descriptor_has_src (F : Type) (h : gmap loc (obj F))
  message d :
  Metro.extractMedia h message = Ok (Some d) ->
  truthy (Metro.url d) = true ->
  truthy (Metro.proxyURL d) = true
  /\ exists src, In ("src", src) (Metro.favouriteArg d)
                 /\ truthy src = true.
Proof.
  intros Hd Hurl.
  assert (truthy (Metro.url d) = true -> truthy (Metro.proxyURL d) = true)
    as Hp.
  { apply (Metro_extractMedia_shape h message d
             (fun d => truthy (Metro.url d) = true
                       -> truthy (Metro.proxyURL d) = true)); [| |done].
    - intros o v _. simpl. rewrite truthy_js_or. intros ->.
      apply orb_true_r.
    - intros e video _. simpl. rewrite !truthy_js_or.
      destruct (truthy (prop h e "url")); [intros _; apply orb_true_r|].
      simpl. intros ->. by rewrite orb_true_r. }
  split; [by apply Hp|].
  exists (Metro.proxyURL d). split; [by left|by apply Hp].
Qed.

Lemma Metro_descriptor_has_src_witness :
  truthy (Metro.proxyURL Samples.png) = true.
Proof.
  exact (proj1 (Metro_descriptor_has_src unit Samples.png_message (VRef 0)
                  Samples.png eq_refl eq_refl)).
Defined.

Section Agreement.
Context {F : Type}.
Implicit Types (h : gmap loc (obj F)).

Lemma Index_attachment_of_Metro h att d :
  Metro.extractAttachment h att = Ok (Some d) ->
  exists video,
    Index.extractAttachment h att = Ok [Index.mediaOf h att video]
    /\ video = Metro.isVideo d.
Proof.
  intros (Hn & s & Hs & Hk & ->)%Metro_extractAttachment_Some.
  assert (prop h att "content_type" = VStr s) as Hct.
  { unfold js_or in Hs.
    destruct (truthy (prop h att "content_type")) eqn:Ht; [done|].
    injection Hs as <-. by vm_compute in Hk. }
  assert (truthy (VStr s) = true) as Ht.
  { simpl. destruct (String.eqb_spec s "") as [->|]; [|done].
    by vm_compute in Hk. }
  rewrite (Index_extractAttachment_record h att s); [| done |].
  - rewrite (Metro_kind_mime_kind s Hk). eauto.
  - rewrite Hct. unfold js_or at 2. rewrite Ht. unfold js_or. by rewrite Ht.
Qed.

Lemma Index_embed_of_Metro h embed d :
  Metro.extractEmbed h embed = Ok (Some d) ->
  exists d' rest, Index.extractEmbed h embed = Ok (d' :: rest).
Proof.
  intros (Hn & Hk & _)%Metro_extractEmbed_Some.
  rewrite Index_extractEmbed_record by done.
  destruct (truthy (prop h embed "video")) eqn:Hv;
    destruct (truthy (prop h embed "image")) eqn:Hi;
    destruct (is_str (prop h embed "type") "gifv");
    simpl in *; try done; eauto.
Qed.

Lemma collect_not_nil {A B} (f : A -> res (list B)) pre x post y ys r :
  f x = Ok (y :: ys) -> collect f (pre ++ x :: post) = Ok r -> r <> [].
Proof.
  intros Hx. rewrite collect_app.
  destruct (collect f pre) as [a|]; [|done]. cbn [bind]. simpl collect.
  rewrite Hx. cbn [bind].
  destruct (collect f post) as [b|]; [|done]. cbn [bind].
  intros [= <-]. by destruct a.
Qed.

End Agreement.

(** X7. Whenever the first-match extractor finds media in a message, the
    list-returning extractor of [src/src/index.ts], if it does not throw on
    a later item, finds media too: its list is not empty. (The converse
    fails on upper-case content types.) *)
Theorem Metro_media_implies_Index_media (F : Type) (h : gmap loc (obj F))
  message d media :
  Metro.extractMedia h message = Ok (Some d) ->
  Index.extractMedia h message = Ok media ->
  media <> [].
Proof.
  unfold Metro.extractMedia, Index.extractMedia.
  destruct (truthy message) eqn:Hm; [|done]. simpl negb. cbv iota.
  rewrite !get_truthy, !get_opt_ok by done. cbn [bind].
  destruct (as_array h (prop h message "attachments")) as [xs|] eqn:Ea.
  - destruct (first_some (Metro.extractAttachment h) xs) as [[d'|]|] eqn:E;
      cbn [bind]; try done.
    + intros _.
      apply first_some_inv in E as (pre & x & post & -> & _ & Hx).
      apply Index_attachment_of_Metro in Hx as (video & Hx & _).
      destruct (collect _ (pre ++ x :: post)) as [m1|] eqn:Ec; [|done].
      cbn [bind]. pose proof (collect_not_nil _ _ _ _ _ _ _ Hx Ec) as Hne.
      destruct (match as_array h (prop h message "embeds") with
                | Some ys => collect (Index.extractEmbed h) ys
                | None => Ok []
                end) as [m2|]; [|done].
      cbn [bind]. intros [= <-]. by destruct m1.
    + destruct (as_array h (prop h message "embeds")) as [ys|]; [|done].
      intros (pre & x & post & -> & _ & Hx)%first_some_inv.
      apply Index_embed_of_Metro in Hx as (d' & rest & Hx).
      destruct (collect (Index.extractAttachment h) xs) as [m1|]; [|done].
      cbn [bind].
      destruct (collect _ (pre ++ x :: post)) as [m2|] eqn:Ec; [|done].
      cbn [bind]. pose proof (collect_not_nil _ _ _ _ _ _ _ Hx Ec) as Hne.
      intros [= <-]. destruct m1; [by destruct m2|done].
  - cbn [bind].
    destruct (as_array h (prop h message "embeds")) as [ys|]; [|done].
    intros (pre & x & post & -> & _ & Hx)%first_some_inv.
    apply Index_embed_of_Metro in Hx as (d' & rest & Hx).
    destruct (collect _ (pre ++ x :: post)) as [m2|] eqn:Ec; [|done].
    cbn [bind]. pose proof (collect_not_nil _ _ _ _ _ _ _ Hx Ec) as Hne.
    intros [= <-]. by destruct m2.
Qed.

Lemma Metro_media_implies_Index_media_witness :
  [ {| Index.url := VStr "a.png"; Index.proxyUrl := VStr "a.png";
       Index.isVideo := false |} ] <> [].
Proof.
  exact (Metro_media_implies_Index_media unit Samples.png_message (VRef 0)
           Samples.png _ eq_refl eq_refl).
Defined.

(** ** The action-sheet hooks, further *)

(** X8. On every message-like value the action-sheet hooks do not throw,
    whatever the builder returned: they hand back its return value. *)
Theorem hooks_do_not_throw :
  (forall (h : gmap loc (obj Index.closure)) args result,
     Spec.message_like h (nth 0 args VUndefined) = true ->
     exists h', Index.afterHook h args result = Ok (h', result))
  /\ (forall (h : gmap loc (obj Metro.closure)) args ret message,
        Metro.messageOf h args = Ok message ->
        Spec.message_like h message = true ->
        exists h', Metro.afterActions h args ret = Ok (h', ret)).
Proof.
  split.
  - intros h args result [media Hm]%Index_extractMedia_like.
    destruct (Index_afterHook_effect h args result media Hm) as (h' & E & _).
    eauto.
  - intros h args ret m Hm (r & Hr & _)%Metro_extractMedia_like.
    destruct (Metro_afterActions_effect h args ret m r Hm Hr) as (h' & E & _).
    eauto.
Qed.

Lemma hooks_do_not_throw_witness :
  exists h', Index.afterHook Samples.png_call [VRef 0] VNull = Ok (h', VNull).
Proof.
  exact (proj1 hooks_do_not_throw Samples.png_call [VRef 0] VNull eq_refl).
Defined.

(** X9. The hook of [src/src/index.ts] does not look for a favourite item
    already there: run a second time on the same array of action items,
    for a message in which it finds media again, it appends a second
    favourite item after the first. (Two [onEnable] calls install the hook
    twice.) *)
Theorem afterHook_twice_appends_twice
  (h h1 : gmap loc (obj Index.closure)) args result l xs d rest d' rest' :
  array_loc h result = Some l ->
  h !! l = Some (OArr xs) ->
  Index.extractMedia h (nth 0 args VUndefined) = Ok (d :: rest) ->
  Index.afterHook h args result = Ok (h1, result) ->
  Index.extractMedia h1 (nth 0 args VUndefined) = Ok (d' :: rest') ->
  exists h2 fav1 fav2,
    Index.afterHook h1 args result = Ok (h2, result)
    /\ h2 !! l = Some (OArr (xs ++ [fav1; fav2]))
    /\ favourite_item h h1 fav1 (Index.FavouriteMedia (d :: rest))
    /\ favourite_item h1 h2 fav2 (Index.FavouriteMedia (d' :: rest')).
Proof.
  intros Hl Hxs Hm H1 Hm'.
  destruct (Index_afterHook_effect h args result _ Hm) as (h1' & E1 & Heff1).
  unfold Index.target in Heff1. rewrite Hl in Heff1.
  destruct Heff1 as (fav1 & [(xs1 & Hx1 & Hx1') _] & Hfav1).
  rewrite E1 in H1. injection H1 as ->.
  rewrite Hxs in Hx1. injection Hx1 as <-.
  assert (array_loc h1 result = Some l) as Hl1.
  { apply array_loc_Some in Hl as [-> _]. apply array_loc_Some. eauto. }
  destruct (Index_afterHook_effect h1 args result _ Hm') as (h2 & E2 & Heff2).
  unfold Index.target in Heff2. rewrite Hl1 in Heff2.
  destruct Heff2 as (fav2 & [(xs2 & Hx2 & Hx2') _] & Hfav2).
  rewrite Hx1' in Hx2. injection Hx2 as <-.
  exists h2, fav1, fav2. split; [done|]. split; [|done].
  by rewrite Hx2', <- app_assoc.
Qed.

Lemma afterHook_twice_appends_twice_witness :
  exists h1 h2 fav1 fav2,
    Index.afterHook Samples.png_call [VRef 0] (VRef 3) = Ok (h1, VRef 3)
    /\ Index.afterHook h1 [VRef 0] (VRef 3) = Ok (h2, VRef 3)
    /\ h2 !! 3 = Some (OArr ([VRef 4] ++ [fav1; fav2])).
Proof.
  eexists.
  assert (Index.afterHook Samples.png_call [VRef 0] (VRef 3)
          = Ok (_, VRef 3)) as H1 by (vm_compute; reflexivity).
  match type of H1 with
  | _ = Ok (?h1, _) =>
      assert (Index.extractMedia h1 (nth 0 [VRef 0] VUndefined)
              = Ok ({| Index.url := VStr "a.png";
                       Index.proxyUrl := VStr "a.png";
                       Index.isVideo := false |} :: []))
        as Hm' by (vm_compute; reflexivity)
  end.
  destruct (afterHook_twice_appends_twice Samples.png_call _
              [VRef 0] (VRef 3) 3 [VRef 4]
              _ _ _ _ eq_refl eq_refl eq_refl H1 Hm')
    as (h2 & fav1 & fav2 & E2 & Hl & _).
  exists h2, fav1, fav2. split; [exact H1|]. split; [exact E2|exact Hl].
Defined.

(** ** The render hooks of the render-overlay variant *)

Section Render.
Context {F : Type}.
Implicit Types (h : gmap loc (obj F)).

(** Reading a property of [v || {}] never throws. *)
Lemma orEmpty_ok h v k : OverlayRender.orEmpty h v k = Ok (prop h v k).
Proof.
  unfold OverlayRender.orEmpty. destruct (truthy v) eqn:E.
  - by apply get_truthy.
  - by destruct v as [| |[]|[]|[]|].
Qed.

(** The media hook on the properties of its first argument. *)
Lemma afterMediaRender_props i h args result :
  let props := nth 0 args VUndefined in
  let src := js_or (js_or (js_or (prop h props "src")
                                 (prop h props "proxyURL"))
                          (prop h props "url"))
                   (VStr "") in
  OverlayRender.afterMediaRender i h args result
  = if truthy src
    then let* _ := OverlayRender.jsx i in
         Ok (OverlayRender.Overlaid result
               {| OverlayRender.url := js_or (prop h props "url") src;
                  OverlayRender.proxyUrl := src;
                  OverlayRender.width := js_or (prop h props "width") (VNum 0);
                  OverlayRender.height :=
                    js_or (prop h props "height") (VNum 0);
                  OverlayRender.video :=
                    truthy (prop h props "video")
                    || truthy (prop h props "isVideo") |})
    else Ok (OverlayRender.Original result).
Proof.
  simpl. unfold OverlayRender.afterMediaRender.
  rewrite !orEmpty_ok, !or_else_Ok. cbn [bind].
  rewrite !or_else_Ok. cbn [bind].
  set (src := js_or (js_or (js_or _ _) _) _).
  destruct (truthy src) eqn:Hs; simpl; [done|].
  assert (truthy (js_or (prop h (nth 0 args VUndefined) "url") src) = false)
    as ->; [|done].
  rewrite truthy_js_or, Hs, orb_false_r.
  unfold src in Hs. rewrite !truthy_js_or in Hs.
  by destruct (truthy (prop h (nth 0 args VUndefined) "src")),
       (truthy (prop h (nth 0 args VUndefined) "proxyURL")),
       (truthy (prop h (nth 0 args VUndefined) "url")).
Qed.

End Render.

Section RenderEmbed.
Context {F : Type}.
Implicit Types (h : gmap loc (obj F)).

(** The embed hook on the properties of its embed. *)
Lemma afterEmbedRender_props i h args result :
  let a0 := nth 0 args VUndefined in
  let embed := js_or (prop h a0 "embed") a0 in
  let content := js_or (prop h embed "image") (prop h embed "video") in
  let u := js_or (js_or (if is_str (prop h embed "type") "gifv"
                         then prop h embed "url" else VBool false)
                        (prop h content "url"))
                 (VStr "") in
  let w := js_or (prop h content "width") (VNum 0) in
  let ht := js_or (prop h content "height") (VNum 0) in
  OverlayRender.afterEmbedRender i h args result
  = if truthy content && truthy u && truthy w && truthy ht
    then let* _ := OverlayRender.jsx i in
         Ok (OverlayRender.Overlaid result
               {| OverlayRender.url := u;
                  OverlayRender.proxyUrl :=
                    js_or (prop h content "proxyURL") u;
                  OverlayRender.width := w;
                  OverlayRender.height := ht;
                  OverlayRender.video := truthy (prop h embed "video") |})
    else Ok (OverlayRender.Original result).
Proof.
  simpl. unfold OverlayRender.afterEmbedRender.
  rewrite get_opt_ok, or_else_Ok. cbn [bind].
  rewrite !orEmpty_ok, or_else_Ok. cbn [bind].
  set (embed := js_or _ (nth 0 args VUndefined)).
  set (content := js_or (prop h embed "image") (prop h embed "video")).
  destruct (truthy content) eqn:Hc; simpl; [|done].
  rewrite !get_truthy by done.
  assert ((if is_str (prop h embed "type") "gifv"
           then Ok (prop h embed "url") else Ok (VBool false))
          = Ok (if is_str (prop h embed "type") "gifv"
                then prop h embed "url" else VBool false)) as ->.
  { by destruct (is_str _ _). }
  rewrite !or_else_Ok. cbn [bind]. rewrite !or_else_Ok. cbn [bind].
  set (u := js_or (js_or _ _) (VStr "")).
  by destruct (truthy u), (truthy (js_or (prop h content "width") (VNum 0))),
       (truthy (js_or (prop h content "height") (VNum 0))).
Qed.

End RenderEmbed.

(** The accessory throws exactly when the [React] binding is undefined:
    its first statement is [React.useState(false)]. *)
Lemma FavouriteAccessory_throws i p favourited :
  OverlayRender.FavouriteAccessory i p favourited = Throw TypeError
  <-> OverlayRender.React i = false.
Proof.
  destruct i as [[] []];
    cbv [OverlayRender.FavouriteAccessory OverlayRender.viaReact
         OverlayRender.jsx OverlayRender.React OverlayRender.classicJsx bind];
    try (destruct (_ || _)); split; congruence.
Qed.

(** With the binding defined the accessory draws its button exactly on
    props with a url, a width and a height. *)
Lemma FavouriteAccessory_sized i p favourited :
  OverlayRender.React i = true ->
  OverlayRender.FavouriteAccessory i p favourited
  = Ok (if truthy (OverlayRender.url p) && truthy (OverlayRender.width p)
           && truthy (OverlayRender.height p)
        then Some {| OverlayRender.accessibilityLabel :=
                       if favourited then "Remove from favourites"
                       else "Add to favourites";
                     OverlayRender.glyph :=
                       if favourited then "★" else "☆" |}
        else None).
Proof.
  destruct i as [r c]. simpl. intros ->.
  cbv [OverlayRender.FavouriteAccessory OverlayRender.viaReact
       OverlayRender.jsx OverlayRender.React OverlayRender.classicJsx bind].
  destruct (truthy (OverlayRender.url p)),
    (truthy (OverlayRender.width p)), (truthy (OverlayRender.height p)),
    c; reflexivity.
Qed.

(** X10. The media-overlay hook hands back the original element, without
    throwing, exactly on props that have no [src], no [proxyURL] and no
    [url], whatever its arguments (absent, null, primitive or record). On
    props with a source it builds the overlay around that same element,
    with a url and a proxy url that are both present; building it throws a
    [TypeError] exactly when the JSX is compiled to [React.createElement]
    calls and the [React] binding is undefined. *)
Theorem afterMediaRender_overlays_iff_source (F : Type)
  (i : OverlayRender.imports) (h : gmap loc (obj F)) args result :
  let props := nth 0 args VUndefined in
  let has_source := truthy (prop h props "src")
                    || truthy (prop h props "proxyURL")
                    || truthy (prop h props "url") in
  if has_source
  then if OverlayRender.classicJsx i && negb (OverlayRender.React i)
       then OverlayRender.afterMediaRender i h args result = Throw TypeError
       else exists p,
              OverlayRender.afterMediaRender i h args result
              = Ok (OverlayRender.Overlaid result p)
              /\ truthy (OverlayRender.url p) = true
              /\ truthy (OverlayRender.proxyUrl p) = true
  else OverlayRender.afterMediaRender i h args result
       = Ok (OverlayRender.Original result).
Proof.
  simpl. rewrite afterMediaRender_props. cbv zeta.
  set (src := js_or (js_or (js_or _ _) _) _).
  assert (truthy src
          = truthy (prop h (nth 0 args VUndefined) "src")
            || truthy (prop h (nth 0 args VUndefined) "proxyURL")
            || truthy (prop h (nth 0 args VUndefined) "url")) as Hsrc.
  { unfold src. rewrite !truthy_js_or. simpl. by rewrite orb_false_r. }
  rewrite <- Hsrc. destruct (truthy src) eqn:Hs; [|done].
  destruct i as [[] []];
    cbv [OverlayRender.jsx OverlayRender.viaReact OverlayRender.React
         OverlayRender.classicJsx bind andb negb]; try done;
    (eexists; split; [reflexivity|]); simpl;
    by rewrite truthy_js_or, Hs, orb_true_r.
Qed.

(** X11. When the element handed back by the media-overlay hook is
    rendered (one call of the accessory on the props of the overlay), the
    favourite button is drawn exactly when the [React] binding is defined
    and the props have a source ([src], [proxyURL] or [url]), a width and a
    height: props with a source but without size are overlaid with an
    accessory that draws nothing. With the binding undefined no button is
    ever drawn: a call of the accessory throws a [TypeError] at its first
    statement, whatever its props. *)
Theorem media_overlay_button_iff_sized (F : Type)
  (i : OverlayRender.imports) (h : gmap loc (obj F)) args result favourited :
  let props := nth 0 args VUndefined in
  ((exists r b,
      OverlayRender.afterMediaRender i h args result = Ok r
      /\ OverlayRender.shownButton i r favourited = Ok (Some b))
   <-> OverlayRender.React i = true
       /\ (truthy (prop h props "src")
           || truthy (prop h props "proxyURL")
           || truthy (prop h props "url"))
          && truthy (prop h props "width")
          && truthy (prop h props "height") = true)
  /\ (forall p,
        OverlayRender.FavouriteAccessory i p favourited = Throw TypeError
        <-> OverlayRender.React i = false).
Proof.
  simpl. split; [|intros p; apply FavouriteAccessory_throws].
  rewrite afterMediaRender_props. cbv zeta.
  set (props := nth 0 args VUndefined).
  set (src := js_or (js_or (js_or _ _) _) _).
  assert (truthy src
          = truthy (prop h props "src") || truthy (prop h props "proxyURL")
            || truthy (prop h props "url")) as Hsrc.
  { unfold src. rewrite !truthy_js_or. simpl. by rewrite orb_false_r. }
  rewrite <- Hsrc.
  destruct (OverlayRender.React i) eqn:Hr.
  - assert (OverlayRender.jsx i = Ok tt) as Hj.
    { unfold OverlayRender.jsx, OverlayRender.viaReact. rewrite Hr.
      by destruct (OverlayRender.classicJsx i). }
    rewrite Hj. cbn [bind].
    destruct (truthy src) eqn:Hs.
    + split.
      * intros (r & b & [= <-] & Hb). simpl in Hb.
        rewrite FavouriteAccessory_sized in Hb by done. simpl in Hb.
        rewrite !truthy_js_or, Hs, orb_true_r in Hb. simpl in Hb.
        rewrite !orb_false_r in Hb. split; [done|]. simpl.
        by destruct (truthy (prop h props "width")),
             (truthy (prop h props "height")).
      * intros [_ Hk]. simpl in Hk. apply andb_prop in Hk as [Hw Hh].
        eexists. eexists. split; [reflexivity|]. simpl.
        rewrite FavouriteAccessory_sized by done. simpl.
        rewrite !truthy_js_or, Hs, Hw, Hh, orb_true_r. reflexivity.
    + split.
      * by intros (r & b & [= <-] & Hb).
      * by intros [_ Hk].
  - split; [|by intros [? _]].
    intros (r & b & Hhook & Hb). destruct r as [v|v p]; [done|].
    simpl in Hb.
    pose proof (proj2 (FavouriteAccessory_throws i p favourited) Hr) as Ht.
    congruence.
Qed.

(** X12. The embed hook hands back the original element, or the overlay
    around it, or throws a [TypeError], the latter only when the JSX is
    compiled to [React.createElement] calls and the [React] binding is
    undefined. It overlays only when the embed has content with a url, a
    width and a height, so that a call of the accessory on the props of an
    overlay always gets to its button: it draws it when the binding is
    defined, and throws a [TypeError] at its first statement when it is
    not. *)
Theorem afterEmbedRender_overlay_draws_button (F : Type)
  (i : OverlayRender.imports) (h : gmap loc (obj F)) args result favourited :
  match OverlayRender.afterEmbedRender i h args result with
  | Ok (OverlayRender.Original v) => v = result
  | Ok (OverlayRender.Overlaid v p) =>
      v = result
      /\ truthy (OverlayRender.url p) = true
      /\ truthy (OverlayRender.proxyUrl p) = true
      /\ if OverlayRender.React i
         then exists b,
                OverlayRender.FavouriteAccessory i p favourited = Ok (Some b)
         else OverlayRender.FavouriteAccessory i p favourited
              = Throw TypeError
  | Throw e =>
      e = TypeError
      /\ OverlayRender.classicJsx i = true
      /\ OverlayRender.React i = false
  end.
Proof.
  rewrite afterEmbedRender_props. cbv zeta.
  match goal with
  | |- context [truthy ?c && truthy ?u && truthy ?w && truthy ?ht] =>
      destruct (truthy c) eqn:Hc; destruct (truthy u) eqn:Hu;
      destruct (truthy w) eqn:Hw; destruct (truthy ht) eqn:Hh
  end; simpl andb; cbv iota; try done.
  destruct (OverlayRender.React i) eqn:Hr.
  - assert (OverlayRender.jsx i = Ok tt) as ->.
    { unfold OverlayRender.jsx, OverlayRender.viaReact. rewrite Hr.
      by destruct (OverlayRender.classicJsx i). }
    cbn [bind]. split; [done|]. split; [done|]. split.
    + simpl. by rewrite truthy_js_or, Hu, orb_true_r.
    + rewrite FavouriteAccessory_sized by done. simpl.
      rewrite Hu, Hw, Hh. simpl. eauto.
  - unfold OverlayRender.jsx, OverlayRender.viaReact. rewrite Hr.
    destruct (OverlayRender.classicJsx i); cbn [bind]; [done|].
    split; [done|]. split; [done|]. split.
    + simpl. by rewrite truthy_js_or, Hu, orb_true_r.
    + by apply FavouriteAccessory_throws.
Qed.

(** X13. For an embed that has an image field, the embed hook takes the
    accessory's url and size from the image (outside gifv embeds with their
    own url), while the video flag only says whether the embed has a video
    field: an embed with an image and a video is overlaid with the image's
    url, flagged as video. *)
Theorem afterEmbedRender_image_content (F : Type)
  (i : OverlayRender.imports) (h : gmap loc (obj F)) args result p :
  let a0 := nth 0 args VUndefined in
  let embed := js_or (prop h a0 "embed") a0 in
  let image := prop h embed "image" in
  truthy image = true ->
  is_str (prop h embed "type") "gifv" = false ->
  OverlayRender.afterEmbedRender i h args result
  = Ok (OverlayRender.Overlaid result p) ->
  OverlayRender.url p = prop h image "url"
  /\ OverlayRender.width p = prop h image "width"
  /\ OverlayRender.height p = prop h image "height"
  /\ OverlayRender.video p = truthy (prop h embed "video").
Proof.
  simpl. intros Hi Hty. rewrite afterEmbedRender_props. cbv zeta.
  set (embed := js_or (prop h (nth 0 args VUndefined) "embed")
                      (nth 0 args VUndefined)) in *.
  assert (js_or (prop h embed "image") (prop h embed "video")
          = prop h embed "image") as Hc.
  { unfold js_or. by rewrite Hi. }
  rewrite !Hc, Hty.
  assert (forall x y, truthy y = false -> truthy (js_or x y) = true ->
                      js_or x y = x) as Hor.
  { intros x y Hy. unfold js_or. destruct (truthy x); [done|congruence]. }
  assert (js_or (VBool false) (prop h (prop h embed "image") "url")
          = prop h (prop h embed "image") "url") as -> by done.
  destruct (truthy (prop h embed "image")
            && truthy (js_or (prop h (prop h embed "image") "url") (VStr ""))
            && truthy (js_or (prop h (prop h embed "image") "width") (VNum 0))
            && truthy (js_or (prop h (prop h embed "image") "height")
                             (VNum 0))) eqn:E; [|done].
  apply andb_prop in E as [E Hh]. apply andb_prop in E as [E Hw].
  apply andb_prop in E as [_ Hu].
  destruct (OverlayRender.jsx i) as [[]|]; cbn [bind]; [|done].
  intros [= <-]. simpl. rewrite !Hor by done. done.
Qed.

Lemma afterEmbedRender_image_content_witness :
  let p := {| OverlayRender.url := VStr "i.png";
              OverlayRender.proxyUrl := VStr "i.png";
              OverlayRender.width := VNum 10;
              OverlayRender.height := VNum 5;
              OverlayRender.video := true |} in
  OverlayRender.afterEmbedRender (F := unit) RenderSamples.automatic_runtime
    RenderSamples.image_video_embed [VRef 0] VNull
  = Ok (OverlayRender.Overlaid VNull p)
  /\ OverlayRender.url p = VStr "i.png"
  /\ OverlayRender.video p = true.
Proof.
  intros p. split; [reflexivity|].
  destruct (afterEmbedRender_image_content unit
              RenderSamples.automatic_runtime
              RenderSamples.image_video_embed [VRef 0] VNull p
              eq_refl eq_refl eq_refl) as (Hu & _ & _ & Hv).
  split; [exact Hu|exact Hv].
Defined.

(** ** The life cycle of the first-match variant *)

(** X14. When the stored handle does not throw, [onUnload] calls it, which
    removes its patch, then forgets it and clears both module caches, so
    that the next [onLoad] resolves the modules again; a second [onUnload]
    in a row does nothing and does not throw. *)
Theorem onUnload_clears fails s :
  (forall fn, MetroLoad.unpatch s = Some fn -> fails fn = false) ->
  let r := MetroLoad.onUnload fails s in
  fst r = Ok tt
  /\ MetroLoad.unpatch (snd r) = None
  /\ MetroLoad.favouritesAPI (snd r) = None
  /\ MetroLoad.messageActions (snd r) = None
  /\ (forall fn, MetroLoad.unpatch s = Some fn ->
        ~ In fn (installed (MetroLoad.patches (snd r)))
        /\ invoked (MetroLoad.patches (snd r))
           = invoked (MetroLoad.patches s) ++ [fn])
  /\ (MetroLoad.unpatch s = None ->
        MetroLoad.patches (snd r) = MetroLoad.patches s)
  /\ MetroLoad.onUnload fails (snd r) = (Ok tt, snd r).
Proof.
  intros Hok. destruct s as [fav act [fn|] p]; simpl in *.
  - unfold MetroLoad.onUnload, mbind, MetroLoad.callUnpatch,
      MetroLoad.clearUnpatch, MetroLoad.clearCaches. simpl.
    rewrite (Hok fn eq_refl). simpl. split_and!; try done.
    + intros fn' [= <-]. split; [|done].
      rewrite <- list_elem_of_In, list_elem_of_filter.
      intros [H _]. apply negb_True in H. apply H.
      by rewrite Is_true_true, Nat.eqb_refl.
  - unfold MetroLoad.onUnload, mbind, MetroLoad.clearCaches, ret. simpl.
    split_and!; try done.
Qed.

Lemma onUnload_clears_witness :
  MetroLoad.unpatch
    (snd (MetroLoad.onUnload (fun _ => false)
            (snd (MetroLoad.onLoad RenderSamples.ready MetroLoad.initial))))
  = None.
Proof.
  exact (proj1 (proj2 (onUnload_clears (fun _ => false)
                         (snd (MetroLoad.onLoad RenderSamples.ready
                                 MetroLoad.initial))
                         (fun _ _ => eq_refl)))).
Defined.

(** X15. The call of the handle in [onUnload] is not guarded: when the
    stored handle throws, the exception leaves [onUnload], the handle stays
    stored and the module caches are not cleared. *)
Theorem onUnload_throwing_handle fails s fn :
  MetroLoad.unpatch s = Some fn ->
  fails fn = true ->
  let r := MetroLoad.onUnload fails s in
  fst r = Throw HostError
  /\ MetroLoad.unpatch (snd r) = Some fn
  /\ MetroLoad.favouritesAPI (snd r) = MetroLoad.favouritesAPI s
  /\ MetroLoad.messageActions (snd r) = MetroLoad.messageActions s
  /\ invoked (MetroLoad.patches (snd r))
     = invoked (MetroLoad.patches s) ++ [fn].
Proof.
  destruct s as [fav act u p]. simpl. intros -> Hf.
  unfold MetroLoad.onUnload, mbind, MetroLoad.callUnpatch. simpl.
  rewrite Hf. by simpl.
Qed.

Lemma onUnload_throwing_handle_witness :
  fst (MetroLoad.onUnload (fun _ => true)
         (snd (MetroLoad.onLoad RenderSamples.ready MetroLoad.initial)))
  = Throw HostError.
Proof.
  exact (proj1 (onUnload_throwing_handle (fun _ => true)
                  (snd (MetroLoad.onLoad RenderSamples.ready
                          MetroLoad.initial))
                  0 eq_refl eq_refl)).
Defined.

(** What [applyPatch] does when the module resolves, the patcher is there
    and the module has a function to patch. *)
Lemma applyPatch_installs e s m key :
  fst (MetroLoad.getMessageActionsModule e s) = Ok (Some m) ->
  MetroLoad.bunnyPatcher e = true ->
  MetroLoad.firstFunction m MetroLoad.candidates = Some key ->
  MetroLoad.applyPatch e s
  = (Ok tt,
     {| MetroLoad.favouritesAPI := MetroLoad.favouritesAPI s;
        MetroLoad.messageActions := Some m;
        MetroLoad.unpatch := Some (next (MetroLoad.patches s));
        MetroLoad.patches :=
          {| installed := next (MetroLoad.patches s)
                          :: installed (MetroLoad.patches s);
             next := S (next (MetroLoad.patches s));
             invoked := invoked (MetroLoad.patches s) |} |}).
Proof.
  destruct s as [fav act u p]. destruct e as [find pat]. simpl.
  intros Hm -> Hk.
  unfold MetroLoad.applyPatch, mbind, MetroLoad.getMessageActionsModule in *.
  simpl in *. destruct act as [m'|].
  - injection Hm as ->. simpl. by rewrite Hk.
  - destruct find as [m'| |]; try done. injection Hm as ->. simpl.
    by rewrite Hk.
Qed.

(** X16. [onLoad] overwrites the stored handle: after two [onLoad] calls
    that both install the patch, with no [onUnload] in between, a following
    [onUnload] calls the second handle only; the patch of the first call
    stays installed and no handle is left to remove it. *)
Theorem onLoad_twice_leaks_patch fails e e' s m key :
  fst (MetroLoad.getMessageActionsModule e s) = Ok (Some m) ->
  MetroLoad.bunnyPatcher e = true ->
  MetroLoad.bunnyPatcher e' = true ->
  MetroLoad.firstFunction m MetroLoad.candidates = Some key ->
  fails (S (next (MetroLoad.patches s))) = false ->
  let s' := MetroLoad.run fails
              [MetroLoad.Load e; MetroLoad.Load e'; MetroLoad.Unload] s in
  In (next (MetroLoad.patches s)) (installed (MetroLoad.patches s'))
  /\ MetroLoad.unpatch s' = None
  /\ invoked (MetroLoad.patches s')
     = invoked (MetroLoad.patches s) ++ [S (next (MetroLoad.patches s))].
Proof.
  intros Hm Hp Hp' Hk Hf. simpl. unfold MetroLoad.onLoad.
  rewrite (applyPatch_installs e s m key Hm Hp Hk). simpl.
  match goal with
  | |- context [MetroLoad.applyPatch e' ?s1] =>
      rewrite (applyPatch_installs e' s1 m key eq_refl Hp' Hk)
  end. simpl.
  unfold MetroLoad.onUnload, mbind, MetroLoad.callUnpatch. simpl.
  rewrite Hf. simpl. split_and!; try done.
  rewrite <- list_elem_of_In, list_elem_of_filter. split.
  - apply negb_True. rewrite Is_true_true, Nat.eqb_eq. lia.
  - rewrite !elem_of_cons. right. by left.
Qed.

Lemma onLoad_twice_leaks_patch_witness :
  In 0 (installed
          (MetroLoad.patches
             (MetroLoad.run (fun _ => false)
                [MetroLoad.Load RenderSamples.ready;
                 MetroLoad.Load RenderSamples.ready;
                 MetroLoad.Unload] MetroLoad.initial))).
Proof.
  exact (proj1 (onLoad_twice_leaks_patch (fun _ => false)
                  RenderSamples.ready RenderSamples.ready MetroLoad.initial
                  RenderSamples.default_only "default"
                  eq_refl eq_refl eq_refl eq_refl eq_refl)).
Defined.

Arguments MetroLoad.firstFunction : simpl never.

(** [applyPatch] leaves the patcher and the stored handle as they were, or
    installs one patch and stores its handle. *)
Lemma applyPatch_cases e s :
  let s' := snd (MetroLoad.applyPatch e s) in
  (MetroLoad.patches s' = MetroLoad.patches s
   /\ MetroLoad.unpatch s' = MetroLoad.unpatch s)
  \/ (installed (MetroLoad.patches s')
      = next (MetroLoad.patches s) :: installed (MetroLoad.patches s)
      /\ next (MetroLoad.patches s') = S (next (MetroLoad.patches s))
      /\ MetroLoad.unpatch s' = Some (next (MetroLoad.patches s))).
Proof.
  destruct s as [fav act u p]. destruct e as [find pat].
  unfold MetroLoad.applyPatch, mbind, MetroLoad.getMessageActionsModule,
    MetroLoad.installPatch. simpl.
  destruct act as [m|]; [|destruct find as [m| |]]; simpl;
    try (by left);
    destruct pat; simpl; try (by left);
    destruct (MetroLoad.firstFunction m MetroLoad.candidates); simpl;
    try (by left); try (by right).
Qed.

(** [onUnload] removes the patch of the stored handle at most. *)
Lemma onUnload_cases fails s :
  let s' := snd (MetroLoad.onUnload fails s) in
  next (MetroLoad.patches s') = next (MetroLoad.patches s)
  /\ (MetroLoad.unpatch s' = None
      \/ MetroLoad.unpatch s' = MetroLoad.unpatch s)
  /\ forall id, MetroLoad.unpatch s <> Some id ->
       In id (installed (MetroLoad.patches s)) ->
       In id (installed (MetroLoad.patches s')).
Proof.
  destruct s as [fav act [fn|] p];
    unfold MetroLoad.onUnload, mbind, MetroLoad.callUnpatch; simpl.
  - assert (forall id, Some fn <> Some id -> In id (installed p) ->
      In id (filter (fun x => negb (Nat.eqb x fn)) (installed p))) as Hkeep.
    { intros id Hne Hin.
      rewrite <- list_elem_of_In, list_elem_of_filter. split.
      - apply negb_True. rewrite Is_true_true, Nat.eqb_eq. congruence.
      - by apply list_elem_of_In. }
    destruct (fails fn); simpl; split_and!; auto.
  - split_and!; auto.
Qed.

(** X17. In the first-match variant a patch whose handle is not the one
    stored is never removed: whatever life-cycle calls follow and whichever
    handles throw, it stays installed. *)
Theorem unstored_patch_stays fails cs s id :
  id < next (MetroLoad.patches s) ->
  In id (installed (MetroLoad.patches s)) ->
  MetroLoad.unpatch s <> Some id ->
  In id (installed (MetroLoad.patches (MetroLoad.run fails cs s))).
Proof.
  revert s. induction cs as [|c cs IH]; intros s Hlt Hin Hne; [done|].
  simpl. destruct c as [e|]; simpl.
  - unfold MetroLoad.onLoad.
    destruct (applyPatch_cases e s) as [[Hp Hu]|(Hi & Hn & Hu)];
      apply IH.
    + by rewrite Hp.
    + by rewrite Hp.
    + by rewrite Hu.
    + rewrite Hn. lia.
    + rewrite Hi. by right.
    + rewrite Hu. intros [= <-]. lia.
  - destruct (onUnload_cases fails s) as (Hn & Hu & Hkeep). apply IH.
    + by rewrite Hn.
    + by apply Hkeep.
    + destruct Hu as [-> | ->]; done.
Qed.

Lemma unstored_patch_stays_witness :
  In 0 (installed
          (MetroLoad.patches
             (MetroLoad.run (fun _ => false)
                [MetroLoad.Unload; MetroLoad.Load RenderSamples.ready;
                 MetroLoad.Unload]
                (MetroLoad.run (fun _ => false)
                   [MetroLoad.Load RenderSamples.ready;
                    MetroLoad.Load RenderSamples.ready]
                   MetroLoad.initial)))).
Proof.
  apply (unstored_patch_stays (fun _ => false)
           [MetroLoad.Unload; MetroLoad.Load RenderSamples.ready;
            MetroLoad.Unload]
           (MetroLoad.run (fun _ => false)
              [MetroLoad.Load RenderSamples.ready;
               MetroLoad.Load RenderSamples.ready]
              MetroLoad.initial) 0).
  - vm_compute. lia.
  - vm_compute. right. left. reflexivity.
  - vm_compute. discriminate.
Defined.

(** ** The life cycle of [src/src/index.ts], further *)

(** X18. [onEnable] does not check whether its patch is already there:
    when the message-actions module is found, [n] calls in a row install
    [n] patches and store their [n] handles, in order, after those already
    stored. *)
Theorem onEnable_repeated fails find key n s :
  Index.findMessageActionsModule find = Some key ->
  let s' := Index.run fails (repeat (Index.Enable find) n) s in
  cleanups s' = cleanups s ++ seq (next (host s)) n
  /\ installed (host s') = rev (seq (next (host s)) n) ++ installed (host s)
  /\ next (host s') = next (host s) + n
  /\ invoked (host s') = invoked (host s).
Proof.
  intros Hk. revert s. induction n as [|n IH]; intros s; simpl.
  - by rewrite app_nil_r, Nat.add_0_r.
  - unfold Index.onEnable. rewrite Hk.
    match goal with
    | |- context [Index.run fails _ ?s1] =>
        destruct (IH s1) as (H1 & H2 & H3 & H4)
    end.
    simpl in *. rewrite H1, H2, H3, H4.
    split_and!; try done; try (by rewrite <- app_assoc); lia.
Qed.

Lemma onEnable_repeated_witness :
  cleanups (Index.run (fun _ => false)
              (repeat (Index.Enable (fun _ => Found tt)) 2) initial)
  = [0; 1].
Proof.
  exact (proj1 (onEnable_repeated (fun _ => false) (fun _ => Found tt)
                  "getMessageActions" 2 initial eq_refl)).
Defined.

(** ** The size of the list of [src/src/index.ts] *)

Lemma collect_length {A B} (f : A -> res (list B)) (k : nat) xs r :
  (forall x ys, f x = Ok ys -> length ys <= k) ->
  collect f xs = Ok r -> length r <= k * length xs.
Proof.
  intros Hf. revert r. induction xs as [|x xs IH]; intros r; simpl.
  - intros [= <-]. simpl. lia.
  - destruct (f x) as [ys|] eqn:Hx; [|done]. cbn [bind].
    destruct (collect f xs) as [zs|]; [|done]. cbn [bind].
    intros [= <-]. rewrite length_app.
    specialize (Hf x ys Hx). specialize (IH zs eq_refl). lia.
Qed.

(** X19. The list of [src/src/index.ts] holds at most one descriptor for
    each attachment and at most two for each embed (the video of a gifv
    embed is not listed twice). *)
Theorem Index_extractMedia_length (F : Type) (h : gmap loc (obj F))
  message media :
  Index.extractMedia h message = Ok media ->
  length media
  <= length (Spec.elements h (prop h message "attachments"))
     + 2 * length (Spec.elements h (prop h message "embeds")).
Proof.
  unfold Index.extractMedia, Spec.elements. rewrite !get_opt_ok.
  cbn [bind].
  assert (forall xs r, collect (Index.extractAttachment h) xs = Ok r ->
                       length r <= 1 * length xs) as Hatt.
  { intros xs r. apply collect_length. intros x ys.
    destruct (nullish x) eqn:Hn.
    { unfold Index.extractAttachment, get. by rewrite Hn. }
    destruct (js_or (js_or (prop h x "content_type")
                           (prop h x "contentType")) (VStr ""))
      as [| | | |s|] eqn:Hs;
      try (unfold Index.extractAttachment;
           rewrite !get_ok, !or_else_Ok, Hs by done; done).
    rewrite (Index_extractAttachment_record h x s) by done.
    intros [= <-]. destruct (Spec.mime_kind s); simpl; lia. }
  assert (forall xs r, collect (Index.extractEmbed h) xs = Ok r ->
                       length r <= 2 * length xs) as Hemb.
  { intros xs r. apply collect_length. intros x ys.
    destruct (nullish x) eqn:Hn.
    { unfold Index.extractEmbed, get. by rewrite Hn. }
    rewrite Index_extractEmbed_record by done. intros [= <-].
    destruct (is_str _ _), (truthy (prop h x "video")),
             (truthy (prop h x "image")); simpl; lia. }
  destruct (as_array h (prop h message "attachments")) as [xs|];
    destruct (as_array h (prop h message "embeds")) as [ys|]; simpl.
  - destruct (collect _ xs) as [m1|] eqn:E1; [|done]. cbn [bind].
    destruct (collect _ ys) as [m2|] eqn:E2; [|done]. cbn [bind].
    intros [= <-]. rewrite length_app.
    apply Hatt in E1. apply Hemb in E2. lia.
  - destruct (collect _ xs) as [m1|] eqn:E1; [|done]. cbn [bind].
    intros [= <-]. rewrite app_nil_r. apply Hatt in E1. lia.
  - destruct (collect _ ys) as [m2|] eqn:E2; [|done]. cbn [bind].
    intros [= <-]. apply Hemb in E2. simpl. lia.
  - intros [= <-]. simpl. lia.
Qed.

Lemma Index_extractMedia_length_witness :
  let h : gmap loc (obj unit) := Samples.video_image_embed "gifv" in
  Index.extractMedia h (VRef 0)
  = Ok [ {| Index.url := VStr "v.mp4"; Index.proxyUrl := VStr "v.mp4";
            Index.isVideo := true |};
         {| Index.url := VStr "i.png"; Index.proxyUrl := VStr "i.png";
            Index.isVideo := false |} ]
  /\ 2 <= length (Spec.elements h (prop h (VRef 0) "attachments"))
          + 2 * length (Spec.elements h (prop h (VRef 0) "embeds")).
Proof.
  intros h. split; [reflexivity|].
  exact (Index_extractMedia_length unit h (VRef 0) _ eq_refl).
Defined.

(** ** Module discovery in the other variants *)

(** X20. [findFavoriteButtonComponent] tries the component name, then the
    display name, then the props; but the first two share one [try]
    block, so that a component-name lookup that throws skips the
    display-name lookup: the answer is then that of the props lookup
    alone. A component found earlier is never replaced by a later one. *)
Theorem findFavoriteButtonComponent_order e :
  (forall m, OverlayRender.findComponentByName e = Found m ->
     OverlayRender.findFavoriteButtonComponent e = Some m)
  /\ (forall m, OverlayRender.findComponentByName e = Missing ->
        OverlayRender.findByDisplayName e = Found m ->
        OverlayRender.findFavoriteButtonComponent e = Some m)
  /\ (OverlayRender.findComponentByName e = LookupThrows ->
        OverlayRender.findFavoriteButtonComponent e
        = match OverlayRender.findByProps e with
          | Found m => Some m
          | _ => None
          end)
  /\ (OverlayRender.findFavoriteButtonComponent e = None <->
      (forall m, OverlayRender.findComponentByName e <> Found m)
      /\ (OverlayRender.findComponentByName e = Missing ->
          forall m, OverlayRender.findByDisplayName e <> Found m)
      /\ (forall m, OverlayRender.findByProps e <> Found m)).
Proof.
  destruct e as [a b c]. unfold OverlayRender.findFavoriteButtonComponent.
  simpl. split_and!.
  - by intros m ->.
  - by intros m -> ->.
  - by intros ->.
  - split.
    + destruct a as [ma| |]; [done| |].
      * destruct b as [mb| |]; [done| |]; destruct c as [mc| |]; try done;
          intros _; split_and!; done.
      * destruct c as [mc| |]; try done; intros _; split_and!; done.
    + intros (Ha & Hb & Hc).
      destruct a as [ma| |]; [by destruct (Ha ma)| |].
      * destruct b as [mb| |]; [by destruct (Hb eq_refl mb)| |];
          destruct c as [mc| |]; try done; by destruct (Hc mc).
      * destruct c as [mc| |]; try done; by destruct (Hc mc).
Qed.

Lemma findFavoriteButtonComponent_order_witness :
  OverlayRender.findFavoriteButtonComponent
    {| OverlayRender.findComponentByName := LookupThrows;
       OverlayRender.findByDisplayName :=
         Found (OverlayRender.Function Returns);
       OverlayRender.findByProps := Missing |}
  = None.
Proof.
  exact (proj1 (proj2 (proj2 (findFavoriteButtonComponent_order
           {| OverlayRender.findComponentByName := LookupThrows;
              OverlayRender.findByDisplayName :=
                Found (OverlayRender.Function Returns);
              OverlayRender.findByProps := Missing |}))) eq_refl).
Defined.

(** X21. [onEnable] of the render-overlay variant installs one patch for
    each of its two integration points whose module is found with its
    render function, and stores the handles in that order; it installs
    nothing when the patcher cannot be loaded, and never throws. *)
Theorem Overlay_onEnable_patches e s :
  let patcher := match Overlay.requirePatcher e with
                 | Found _ => true
                 | _ => false
                 end in
  let media := match Overlay.findMediaOverlayModule e with
               | Some true => patcher
               | _ => false
               end in
  let embed := match Overlay.findEmbedModule e with
               | Some true => patcher
               | _ => false
               end in
  let k := (if media then 1 else 0) + (if embed then 1 else 0) in
  let r := Overlay.onEnable e s in
  fst r = Ok tt
  /\ cleanups (snd r) = cleanups s ++ seq (next (host s)) k
  /\ installed (host (snd r))
     = rev (seq (next (host s)) k) ++ installed (host s)
  /\ invoked (host (snd r)) = invoked (host s).
Proof.
  destruct s as [c p]. destruct e as [pat med eb en].
  unfold Overlay.onEnable, Overlay.findMediaOverlayModule,
    Overlay.findEmbedModule, Overlay.patchComponent, Overlay.pushIfAny,
    mbind, after, pushCleanup, ret. simpl.
  destruct pat as [[]| |]; destruct med as [[]| |];
    destruct eb as [[]| |]; destruct en as [[]| |]; simpl;
    rewrite <- ?app_assoc, ?app_nil_r; done.
Qed.

(** X22. The message-actions module is cached by the first [applyPatch]
    that finds it: while it is cached, [applyPatch] does not depend on the
    lookup any more; when nothing is cached and the lookup finds nothing
    (or throws), [applyPatch] changes nothing, and the next call looks
    again. *)
Theorem messageActions_cached :
  (forall e e' s m,
     MetroLoad.messageActions s = Some m ->
     MetroLoad.bunnyPatcher e = MetroLoad.bunnyPatcher e' ->
     MetroLoad.applyPatch e s = MetroLoad.applyPatch e' s)
  /\ (forall e s m,
        MetroLoad.messageActions s = None ->
        MetroLoad.findActions e = Found m ->
        MetroLoad.messageActions (snd (MetroLoad.applyPatch e s)) = Some m)
  /\ (forall e s,
        MetroLoad.messageActions s = None ->
        (forall m, MetroLoad.findActions e <> Found m) ->
        MetroLoad.applyPatch e s = (Ok tt, s)).
Proof.
  split_and!.
  - intros [find pat] [find' pat'] [fav act u p] m. simpl. intros -> <-.
    reflexivity.
  - intros [find pat] [fav act u p] m. simpl. intros -> ->.
    unfold MetroLoad.applyPatch, mbind, MetroLoad.getMessageActionsModule,
      MetroLoad.installPatch. simpl.
    destruct pat; simpl; [|done].
    by destruct (MetroLoad.firstFunction m MetroLoad.candidates).
  - intros [find pat] [fav act u p]. simpl. intros -> Hno.
    unfold MetroLoad.applyPatch, mbind, MetroLoad.getMessageActionsModule.
    simpl. destruct find as [m| |]; [by destruct (Hno m)|done|done].
Qed.

Lemma messageActions_cached_witness :
  MetroLoad.messageActions
    (snd (MetroLoad.applyPatch RenderSamples.ready MetroLoad.initial))
  = Some RenderSamples.default_only.
Proof.
  exact (proj1 (proj2 messageActions_cached) RenderSamples.ready
           MetroLoad.initial RenderSamples.default_only eq_refl eq_refl).
Defined.
